(** * Voicebot ASR backend: keyword matcher, upload validation, keyword loading

    A shallow embedding of [backend/api_server.py].  Python strings are
    sequences of Unicode code points, the module globals are an explicit
    state threaded through every call, exceptions are an error result, and
    the external collaborators (file system, audio decoder, ASR model) are
    oracles of an interface. *)

From Stdlib Require Import NArith ZArith String Ascii Sorted.
From stdpp Require Import base option list gmap strings sorting.

#[local] Set Warnings "-clear-no-such-hyp".
Local Open Scope N_scope.

(** ** Python strings *)

(** A [str] is a list of code points. *)
Abbreviation char := N (only parsing).
Abbreviation str := (list N) (only parsing).

(** An ASCII literal of the source as a [str]. *)
Definition lit (s : string) : str := map N_of_ascii (list_ascii_of_string s).

Module Unicode.

(** The tables of the Unicode character database that the interpreter
    consults; the program only reaches them through [str.lower],
    [str.strip] and the [\w] class of [re]. *)
Class UnicodeDB := {
  isalnum : char -> bool;            (* alphabetic, decimal, digit or numeric *)
  to_lower_full : char -> str;       (* full lowercase mapping of one code point *)
  is_cased : char -> bool;
  is_case_ignorable : char -> bool;
  isspace : char -> bool
}.

Definition CAPITAL_SIGMA : char := 0x3A3.
Definition FINAL_SIGMA : char := 0x3C2.
Definition SMALL_SIGMA : char := 0x3C3.

Section Lower.
Context `{UnicodeDB}.

(** First code point of [s] that is not case-ignorable. *)
Fixpoint skip_case_ignorable (s : str) : option char :=
  match s with
  | [] => None
  | c :: s' => if is_case_ignorable c then skip_case_ignorable s' else Some c
  end.

(** U+03A3 lowers to the final sigma when a cased letter precedes it and
    none follows, case-ignorable code points skipped on both sides.
    [before] holds the code points before the sigma, nearest first. *)
Definition handle_capital_sigma (before after : str) : char :=
  let final_sigma :=
    match skip_case_ignorable before with
    | Some c => is_cased c
    | None => false
    end in
  let final_sigma :=
    if final_sigma then
      match skip_case_ignorable after with
      | Some c => negb (is_cased c)
      | None => true
      end
    else false in
  if final_sigma then FINAL_SIGMA else SMALL_SIGMA.

Definition lower_ucs4 (before : str) (c : char) (after : str) : str :=
  if c =? CAPITAL_SIGMA then [handle_capital_sigma before after]
  else to_lower_full c.

Fixpoint do_lower (before s : str) : str :=
  match s with
  | [] => []
  | c :: after => lower_ucs4 before c after ++ do_lower (c :: before) after
  end.

(** [s.lower()] *)
Definition lower (s : str) : str := do_lower [] s.

Fixpoint lstrip (s : str) : str :=
  match s with
  | [] => []
  | c :: s' => if isspace c then lstrip s' else s
  end.

(** [s.strip()] *)
Definition strip (s : str) : str := rev (lstrip (rev (lstrip s))).

(** [\w] of a Unicode pattern: alphanumeric or the underscore. *)
Definition is_word (c : char) : bool := isalnum c || (c =? 95).

End Lower.

(** The Latin-1 excerpt of the tables (code points below 256, where every
    text of the scenarios lives); code points outside the excerpt are left
    unmapped. *)
Definition in_range (lo hi c : N) : bool := (lo <=? c) && (c <=? hi).

Definition latin1_letter (c : char) : bool :=
  in_range 65 90 c || in_range 97 122 c || (c =? 170) || (c =? 181) || (c =? 186)
  || in_range 192 214 c || in_range 216 246 c || in_range 248 255 c.

Definition latin1_upper (c : char) : bool :=
  in_range 65 90 c || in_range 192 214 c || in_range 216 222 c.

#[export] Instance Latin1 : UnicodeDB := {|
  isalnum c :=
    latin1_letter c || in_range 48 57 c || in_range 178 179 c || (c =? 185)
    || in_range 188 190 c;
  to_lower_full c := if latin1_upper c then [c + 32] else [c];
  is_cased c := latin1_letter c;
  is_case_ignorable c :=
    bool_decide (c ∈ [39; 46; 58; 94; 96; 168; 173; 175; 180; 183; 184]);
  isspace c := in_range 9 13 c || in_range 28 32 c || (c =? 133) || (c =? 160)
|}.

End Unicode.
Import Unicode.

(** ** The token pattern                                                  *)

Module WordPattern.
Section Pattern.
Context `{UnicodeDB}.

(** The letters listed in the class next to [\w]:
    a-umlaut, o-umlaut, u-umlaut, their capitals and the sharp s. *)
Definition umlauts : list char := [228; 246; 252; 196; 214; 220; 223].

(** The class [[\wäöüÄÖÜß]]. *)
Definition in_class (c : char) : bool :=
  is_word c || bool_decide (c ∈ umlauts).

Definition is_word_at (o : option char) : bool :=
  match o with
  | Some c => is_word c
  | None => false
  end.

(** [\b] between the code point before the position and the one at it
    ([None] at either end of the string). *)
Definition at_boundary (that this : option char) : bool :=
  negb (eqb (is_word_at that) (is_word_at this)).

(** The greedy [+] followed by [\b], once [c] has been consumed: take as
    many class members of [s] as possible, and give back one at a time
    until the position is a word boundary. *)
Fixpoint match_tail (c : char) (s : str) : option str :=
  match s with
  | [] => if at_boundary (Some c) None then Some [] else None
  | d :: s' =>
      let stop := if at_boundary (Some c) (Some d) then Some [] else None in
      if in_class d then
        match match_tail d s' with
        | Some tok => Some (d :: tok)
        | None => stop
        end
      else stop
  end.

(** A match of [\b[\wäöüÄÖÜß]+\b] starting exactly at the head of [s],
    [that] being the code point before it. *)
Definition match_at (that : option char) (s : str) : option str :=
  match s with
  | [] => None
  | c :: s' =>
      if at_boundary that (Some c) && in_class c then
        match match_tail c s' with
        | Some tok => Some (c :: tok)
        | None => None
        end
      else None
  end.

(** The scan of [finditer]: [pos] is the offset of the head of [s], [that]
    the code point before it, [skip] the number of code points of the
    last match still to step over.  The search resumes at the end of
    each match, and one code point further where there is none. *)
Fixpoint scan (pos : nat) (that : option char) (skip : nat) (s : str)
  : list (nat * str) :=
  match s with
  | [] => []
  | c :: s' =>
      match skip with
      | S k => scan (S pos) (Some c) k s'
      | O =>
          match match_at that s with
          | Some tok => (pos, tok) :: scan (S pos) (Some c) (length tok - 1) s'
          | None => scan (S pos) (Some c) 0 s'
          end
      end
  end.

(** [word_pattern.finditer(s)] as (start offset, matched text). *)
Definition finditer (s : str) : list (nat * str) := scan 0 None 0 s.

(** [word_pattern.findall(s)] *)
Definition findall (s : str) : list str := map snd (finditer s).

End Pattern.
End WordPattern.
Import WordPattern.

(** ** Exceptions, module state and the external collaborators *)

Inductive exn :=
| HTTPException (status_code : Z) (detail : string)
| RuntimeError (msg : string)
| OtherError (name : string).       (* any other subclass of [Exception] *)

Inductive result (A : Type) :=
| Ok (a : A)
| Raise (e : exn).
Arguments Ok {A} a.
Arguments Raise {A} e.

(** What [json.load] returns. *)
#[warnings="-register-all"]
Inductive json :=
| JNull
| JBool (b : bool)
| JNum (n : Z)
| JStr (s : str)
| JArr (items : list json)
| JObj (members : list (str * json)).   (* members in file order *)

(** Everything outside the module: configuration read from the environment
    at import time, the keyword file, the decoder and the ASR model. *)
Class External := {
  Audio : Type;
  Pipe : Type;
  MAX_FILE_SIZE_MB : Z;                       (* int(os.getenv(..., "25")) *)
  keywords_file : result json;                (* open(KEYWORDS_PATH), json.load *)
  pipeline : result Pipe;                     (* transformers.pipeline(...) *)
  force_german : Pipe -> result Pipe;         (* forced decoder ids for "de" *)
  write_raw : str -> list N -> result unit;   (* open(raw_path, "wb"), write *)
  from_file : str -> list N -> result Audio;  (* AudioSegment.from_file *)
  export_wav : Audio -> result Audio;         (* audio.export(..., "wav") *)
  run_pipe : Pipe -> Audio -> result (option str)  (* pipe(wav_path), its "text" *)
}.

Inductive event :=
| LogInfo (msg : string)
| LogLoaded (n : nat)               (* "Loaded %d keywords" *)
| LogWarning (msg : string)
| LogException (msg : string)
| EvRead                            (* await file.read() *)
| EvTmpDir                          (* TemporaryDirectory entered *)
| EvCleanup                         (* TemporaryDirectory left *)
| EvWriteRaw
| EvDecode
| EvExport
| EvLoadModel
| EvInfer.

Section Backend.
Context `{UnicodeDB} `{External}.

(** The module globals, the cache of [lru_cache] and the observable
    effects so far. *)
Record state := {
  keyword_set : gset str;
  keywords_raw : json;
  asr_cache : option Pipe;
  trace : list event
}.

Definition set_keyword_set (v : gset str) (s : state) : state :=
  {| keyword_set := v; keywords_raw := keywords_raw s;
     asr_cache := asr_cache s; trace := trace s |}.
Definition set_keywords_raw (v : json) (s : state) : state :=
  {| keyword_set := keyword_set s; keywords_raw := v;
     asr_cache := asr_cache s; trace := trace s |}.
Definition set_asr_cache (v : option Pipe) (s : state) : state :=
  {| keyword_set := keyword_set s; keywords_raw := keywords_raw s;
     asr_cache := v; trace := trace s |}.
Definition add_event (e : event) (s : state) : state :=
  {| keyword_set := keyword_set s; keywords_raw := keywords_raw s;
     asr_cache := asr_cache s; trace := trace s ++ [e] |}.

(** State that survives an exception, as Python's does. *)
Definition M (A : Type) : Type := state -> result A * state.

Definition ret {A} (a : A) : M A := fun s => (Ok a, s).
Definition raise {A} (e : exn) : M A := fun s => (Raise e, s).
Definition bind {A B} (m : M A) (k : A -> M B) : M B :=
  fun s => match m s with
           | (Ok a, s') => k a s'
           | (Raise e, s') => (Raise e, s')
           end.
Definition try_except {A} (m : M A) (handler : exn -> M A) : M A :=
  fun s => match m s with
           | (Ok a, s') => (Ok a, s')
           | (Raise e, s') => handler e s'
           end.
Definition gets {A} (f : state -> A) : M A := fun s => (Ok (f s), s).
Definition modify (f : state -> state) : M unit := fun s => (Ok tt, f s).
Definition emit (e : event) : M unit := modify (add_event e).
Definition lift {A} (r : result A) : M A := fun s => (r, s).

End Backend.

Notation "'let*' x ':=' m 'in' k" := (bind m (fun x => k))
  (at level 10, x pattern, m at level 100, k at level 200).
Notation "m ';;' k" := (bind m (fun _ => k))
  (at level 100, k at level 200, right associativity).

(** ** Library operations on the values the program handles *)

(** [d.get(key, dflt)]: only a dict has the method; of two members with one
    key the later one is the dict's. *)
Fixpoint dict_lookup (key : str) (members : list (str * json)) : option json :=
  match members with
  | [] => None
  | (k, v) :: rest =>
      match dict_lookup key rest with
      | Some v' => Some v'
      | None => if decide (k = key) then Some v else None
      end
  end.

Definition py_get (j : json) (key : str) (dflt : json) : result json :=
  match j with
  | JObj members => Ok (default dflt (dict_lookup key members))
  | _ => Raise (OtherError "AttributeError")
  end.

(** What a [for] over the value yields: the items of a list, the
    one-character strings of a string, the keys of a dict. *)
Definition py_iter (j : json) : result (list json) :=
  match j with
  | JArr items => Ok items
  | JStr s => Ok (map (fun c => JStr [c]) s)
  | JObj members => Ok (map (fun kv => JStr (fst kv)) members)
  | _ => Raise (OtherError "TypeError")
  end.

(** [k.lower()]: only a string has the method. *)
Definition py_lower `{UnicodeDB} (k : json) : result str :=
  match k with
  | JStr s => Ok (lower s)
  | _ => Raise (OtherError "AttributeError")
  end.

(** The set comprehension [{k.lower() for k in ...}] over the items. *)
Fixpoint lower_all `{UnicodeDB} (items : list json) : result (gset str) :=
  match items with
  | [] => Ok ∅
  | k :: rest =>
      match py_lower k with
      | Ok s =>
          match lower_all rest with
          | Ok acc => Ok ({[ s ]} ∪ acc)
          | Raise e => Raise e
          end
      | Raise e => Raise e
      end
  end.

(** [s.rfind(c)]: the last index of [c], [-1] when there is none. *)
Fixpoint rfind_from (c : char) (s : str) (i best : Z) : Z :=
  match s with
  | [] => best
  | d :: s' => rfind_from c s' (i + 1)%Z (if d =? c then i else best)
  end.
Definition rfind (c : char) (s : str) : Z := rfind_from c s 0%Z (-1)%Z.

(** The loop of [genericpath._splitext] that steps over leading dots: [n]
    indices from [filenameIndex] up to the last dot; [true] as soon as one
    of them holds something else than a dot. *)
Fixpoint non_dot_before (p : str) (filenameIndex n : nat) : bool :=
  match n with
  | O => false
  | S n' =>
      match p !! filenameIndex with
      | Some c => if c =? 46 then non_dot_before p (S filenameIndex) n' else true
      | None => true
      end
  end.

(** [os.path.splitext(p)] of [posixpath]. *)
Definition splitext (p : str) : str * str :=
  let sepIndex := rfind 47 p in
  let dotIndex := rfind 46 p in
  if (dotIndex >? sepIndex)%Z
     && non_dot_before p (Z.to_nat (sepIndex + 1)) (Z.to_nat (dotIndex - (sepIndex + 1)))
  then (take (Z.to_nat dotIndex) p, drop (Z.to_nat dotIndex) p)
  else (p, []).

(** ** The service *)

Definition ALLOWED_EXT : gset str := {[ lit ".wav"; lit ".mp3" ]}.

Record UploadFile := {
  filename : option str;
  contents : list N               (* the bytes [file.read()] returns *)
}.

(** The response without its [timings], which are wall-clock floats. *)
Record TranscribeResponse := {
  text : str;
  keywords : list str
}.

Section Service.
Context `{UnicodeDB} `{External}.

Definition load_keywords_try : M unit :=
  let* j := lift keywords_file in
  let* raw := lift (py_get j (lit "keywords") (JArr [])) in
  modify (set_keywords_raw raw) ;;
  let* items := lift (py_iter raw) in
  let* ks := lift (lower_all items) in
  modify (set_keyword_set ks) ;;
  emit (LogLoaded (size ks)).

Definition load_keywords : M unit :=
  try_except load_keywords_try
    (fun _ =>
       emit (LogException "Failed to load keywords") ;;
       modify (set_keyword_set ∅) ;;
       modify (set_keywords_raw (JArr []))).

(** The body under [lru_cache(maxsize=1)]: a returned pipeline is kept,
    a raised exception is not. *)
Definition get_asr_pipeline : M Pipe :=
  let* cached := gets asr_cache in
  match cached with
  | Some p => ret p
  | None =>
      let* p :=
        try_except
          (emit (LogInfo "Loading ASR model") ;;
           emit EvLoadModel ;;
           let* asr_pipe := lift pipeline in
           let* asr_pipe :=
             try_except (lift (force_german asr_pipe))
               (fun _ => emit (LogWarning "Forced decoder ids not set") ;;
                         ret asr_pipe) in
           emit (LogInfo "ASR model ready") ;;
           ret asr_pipe)
          (fun _ =>
             emit (LogException "ASR model load failed") ;;
             raise (RuntimeError "Model initialization failed")) in
      modify (set_asr_cache (Some p)) ;;
      ret p
  end.

(** The startup half of [lifespan]. *)
Definition lifespan_startup : M unit :=
  load_keywords ;;
  try_except (let* _ := get_asr_pipeline in ret tt) (fun _ => ret tt).

(** One turn of the loop of [detect_keywords]. *)
Definition detect_step (ks : gset str) (found : list str) (token : str) : list str :=
  if bool_decide (token ∈ ks) && negb (bool_decide (token ∈ found))
  then found ++ [token]
  else found.

Definition detect_keywords (text : str) : M (list str) :=
  let* ks := gets keyword_set in
  ret (foldl (detect_step ks) [] (findall (lower text))).

Definition validate_file_meta (upload : UploadFile) : M unit :=
  let ext := lower (snd (splitext (default [] (filename upload)))) in
  if bool_decide (ext ∈ ALLOWED_EXT) then ret tt
  else raise (HTTPException 400 "Unsupported file extension").

Definition ensure_size_limit (size_bytes : Z) : M unit :=
  if (size_bytes >? MAX_FILE_SIZE_MB * 1024 * 1024)%Z
  then raise (HTTPException 413 "File too large")
  else ret tt.

(** [with tempfile.TemporaryDirectory()]: the directory is removed on
    every way out of the block. *)
Definition with_tmpdir {A} (body : M A) : M A :=
  emit EvTmpDir ;;
  try_except (let* a := body in emit EvCleanup ;; ret a)
    (fun e => emit EvCleanup ;; raise e).

Definition transcribe_try (name : str) (file : UploadFile) : M TranscribeResponse :=
  emit EvRead ;;
  let contents := contents file in
  ensure_size_limit (Z.of_nat (length contents)) ;;
  with_tmpdir
    (emit EvWriteRaw ;;
     lift (write_raw name contents) ;;
     emit EvDecode ;;
     let* audio := lift (from_file name contents) in
     emit EvExport ;;
     let* wav := lift (export_wav audio) in
     let* pipe := get_asr_pipeline in
     emit EvInfer ;;
     let* result := lift (run_pipe pipe wav) in
     let text := strip (default [] result) in
     let* detected := detect_keywords text in
     ret {| text := text; keywords := detected |}).

(** [POST /transcribe] *)
Definition transcribe (file : UploadFile) : M TranscribeResponse :=
  match filename file with
  | None | Some [] => raise (HTTPException 400 "Empty filename")
  | Some name =>
      validate_file_meta file ;;
      try_except (transcribe_try name file)
        (fun e =>
           match e with
           | HTTPException _ _ => raise e
           | RuntimeError msg => raise (HTTPException 500 msg)
           | OtherError _ =>
               emit (LogException "Transcription failed") ;;
               raise (HTTPException 500 "Internal Server Error")
           end)
  end.

End Service.

(** ** The keyword listing *)

(** [a <= b] on strings: lexicographic on code points, a proper prefix
    first. *)
Fixpoint str_leb (a b : str) : bool :=
  match a, b with
  | [], _ => true
  | _ :: _, [] => false
  | x :: a', y :: b' =>
      if x <? y then true else if x =? y then str_leb a' b' else false
  end.

Definition str_le (a b : str) : Prop := str_leb a b = true.

#[export] Instance str_le_dec : RelDecision str_le.
Proof. intros a b. unfold str_le. apply _. Defined.

(** [sorted(l)] on a list of strings. *)
Definition sorted (l : list str) : list str := merge_sort str_le l.

(** The strings a value yields when iterated, when it yields only strings:
    the items of a list of strings, the characters of a string, the keys of
    a dict (each once). *)
Definition raw_strings (j : json) : option (list str) :=
  match j with
  | JArr items =>
      mapM (fun k => match k with JStr s => Some s | _ => None end) items
  | JStr s => Some (map (fun c => [c]) s)
  | JObj members => Some (remove_dups (map fst members))
  | _ => None
  end.

Section Listing.
Context `{External}.

(** What [sorted] and the response model make of a [keywords_raw] that does
    not iterate into strings (an exception of the iteration, of a
    comparison or of the validation, or a coercion): left open. *)
Variable untyped_listing : json -> M (list str).

(** [GET /keywords] *)
Definition list_keywords : M (list str) :=
  let* raw := gets keywords_raw in
  match raw_strings raw with
  | Some ks => ret (sorted ks)
  | None => untyped_listing raw
  end.

End Listing.

(** ** Notions the statements use *)

(** One match ends before the other starts. *)
Definition ends_before (m1 m2 : nat * str) : Prop :=
  (fst m1 + length (snd m1) <= fst m2)%nat.


(** The extension [validate_file_meta] looks up in [ALLOWED_EXT]. *)
Definition extension `{UnicodeDB} (file : UploadFile) : str :=
  lower (snd (splitext (default [] (filename file)))).



(** A code point that [str.lower] leaves alone wherever it stands. *)
Definition lowercase `{UnicodeDB} (d : char) : Prop :=
  d <> CAPITAL_SIGMA /\ to_lower_full d = [d].

(** The lowercase mapping only produces code points it leaves alone, as the
    mapping of the Unicode character database does. *)
Definition lowercase_closed `{UnicodeDB} : Prop :=
  (forall c d, c <> CAPITAL_SIGMA -> d ∈ to_lower_full c -> lowercase d)
  /\ lowercase FINAL_SIGMA /\ lowercase SMALL_SIGMA.

(** The code point [c] lowers to, when that is a single one. *)
Definition lower1 `{UnicodeDB} (c : char) : char :=
  match to_lower_full c with
  | [d] => d
  | _ => c
  end.

(** Lowercasing is simple at [c]: [c] is not the capital sigma and lowers to
    one code point, which is a word character, and a class member, exactly
    when [c] is. *)
Definition simple_case `{UnicodeDB} (c : char) : bool :=
  negb (c =? CAPITAL_SIGMA)
  && match to_lower_full c with
     | [d] => eqb (is_word d) (is_word c) && eqb (in_class d) (in_class c)
     | _ => false
     end.

(** ** Fixtures *)

(** The globals as the module body leaves them at import. *)
Definition initial_state `{External} : state :=
  {| keyword_set := ∅; keywords_raw := JArr []; asr_cache := None; trace := [] |}.

Definition with_keywords `{External} (ks : gset str) : state :=
  set_keyword_set ks initial_state.

(** A world whose decoder accepts every upload and whose model hears
    [heard] in every recording. *)
Definition demo_world (limit_mb : Z) (file : result json) (heard : str) : External := {|
  Audio := list N;
  Pipe := unit;
  MAX_FILE_SIZE_MB := limit_mb;
  keywords_file := file;
  pipeline := Ok tt;
  force_german := fun p => Ok p;
  write_raw := fun _ _ => Ok tt;
  from_file := fun _ bytes => Ok bytes;
  export_wav := fun a => Ok a;
  run_pipe := fun _ _ => Ok (Some heard)
|}.

(** The default deployment: 25 MB limit, no keyword file on disk. *)
Definition default_world : External :=
  demo_world 25 (Raise (OtherError "FileNotFoundError"))
    (lit "Der Ball ist rot und blau.").

(** A deployment whose keyword file parses but lists a number among the
    keywords. *)
Definition malformed_world : External :=
  demo_world 25
    (Ok (JObj [(lit "keywords", JArr [JStr (lit "Rot"); JNum 7])]))
    (lit "Der Ball ist rot und blau.").

Definition o_umlaut : char := 246.
Definition sharp_s : char := 223.

(** "Die Größe ist enorm" and "größe" *)
Definition die_groesse_ist_enorm : str :=
  lit "Die Gr" ++ [o_umlaut; sharp_s] ++ lit "e ist enorm".
Definition groesse : str := lit "gr" ++ [o_umlaut; sharp_s] ++ lit "e".

(** An upload whose filename is the empty string. *)
Definition unnamed_upload : UploadFile :=
  {| filename := Some []; contents := [] |}.

(** "audio.txt", one byte above 25 MB. *)
Definition oversized_txt_upload : UploadFile :=
  {| filename := Some (lit "audio.txt");
     contents := replicate (N.to_nat 26214401) 0 |}.

(** "clip.MP3", one byte above 25 MB. *)
Definition oversized_mp3_upload : UploadFile :=
  {| filename := Some (lit "clip.MP3");
     contents := replicate (N.to_nat 26214401) 0 |}.

Definition is_tmpdir (e : event) : bool :=
  match e with EvTmpDir => true | _ => false end.
Definition is_cleanup (e : event) : bool :=
  match e with EvCleanup => true | _ => false end.
Definition is_load_model (e : event) : bool :=
  match e with EvLoadModel => true | _ => false end.
Definition is_infer (e : event) : bool :=
  match e with EvInfer => true | _ => false end.

(** What the handlers of [transcribe] turn an exception of its [try] block
    into. *)
Definition as_http (e : exn) : exn :=
  match e with
  | HTTPException _ _ => e
  | RuntimeError msg => HTTPException 500 msg
  | OtherError _ => HTTPException 500 "Internal Server Error"
  end.

Definition is_http (e : exn) : bool :=
  match e with HTTPException _ _ => true | _ => false end.

(** The file system, the decoder and the model raise errors of their own,
    never an [HTTPException]. *)
Definition collaborators_raise_no_http `{External} : Prop :=
  (forall name bytes e, write_raw name bytes = Raise e -> is_http e = false)
  /\ (forall name bytes e, from_file name bytes = Raise e -> is_http e = false)
  /\ (forall a e, export_wav a = Raise e -> is_http e = false)
  /\ (forall p w e, run_pipe p w = Raise e -> is_http e = false).

(** A deployment whose model cannot be built. *)
Definition offline_world : External := {|
  Audio := list N;
  Pipe := unit;
  MAX_FILE_SIZE_MB := 25;
  keywords_file := Raise (OtherError "FileNotFoundError");
  pipeline := Raise (OtherError "OSError");
  force_german := fun p => Ok p;
  write_raw := fun _ _ => Ok tt;
  from_file := fun _ bytes => Ok bytes;
  export_wav := fun a => Ok a;
  run_pipe := fun _ _ => Ok None
|}.

(** A deployment whose decoder refuses every upload. *)
Definition deaf_world : External := {|
  Audio := list N;
  Pipe := unit;
  MAX_FILE_SIZE_MB := 25;
  keywords_file := Raise (OtherError "FileNotFoundError");
  pipeline := Ok tt;
  force_german := fun p => Ok p;
  write_raw := fun _ _ => Ok tt;
  from_file := fun _ _ => Raise (OtherError "CouldntDecodeError");
  export_wav := fun a => Ok a;
  run_pipe := fun _ _ => Ok None
|}.

(** A deployment whose model hears only blanks. *)
Definition quiet_world : External :=
  demo_world 25 (Raise (OtherError "FileNotFoundError")) (lit "  ").

(** A short upload named "clip.wav". *)
Definition clip_upload : UploadFile :=
  {| filename := Some (lit "clip.wav"); contents := [82; 73; 70; 70] |}.

(** An upload passes the filename checks and the size check. *)
Definition admitted `{UnicodeDB} `{External} (file : UploadFile) (name : str) : Prop :=
  filename file = Some name /\ name <> []
  /\ extension file ∈ ALLOWED_EXT
  /\ (Z.of_nat (length (contents file)) <= MAX_FILE_SIZE_MB * 1024 * 1024)%Z.

(** A keyword file [{"keywords": [...]}] listing [ks], and a deployment that
    has it. *)
Definition keywords_json (ks : list str) : json :=
  JObj [(lit "keywords", JArr (map JStr ks))].

Definition keywords_world (ks : list str) : External :=
  demo_world 25 (Ok (keywords_json ks)) (lit "Der Ball ist rot und blau.").



(** * Properties *)

(** ** The pattern *)

Section PatternFacts.
Context `{UnicodeDB}.

Lemma match_tail_prefix c s tok :
  match_tail c s = Some tok -> exists rest, s = tok ++ rest.
Proof.
  revert c tok. induction s as [|d s IH]; intros c tok; simpl.
  - destruct (at_boundary _ _); [|discriminate].
    intros [= <-]. by exists [].
  - destruct (in_class d).
    + destruct (match_tail d s) as [tok'|] eqn:E.
      * intros [= <-]. destruct (IH _ _ E) as [rest ->]. by exists rest.
      * destruct (at_boundary _ _); [|discriminate].
        intros [= <-]. by exists (d :: s).
    + destruct (at_boundary _ _); [|discriminate].
      intros [= <-]. by exists (d :: s).
Qed.

Lemma match_tail_class c s tok :
  match_tail c s = Some tok -> Forall (fun d => in_class d = true) tok.
Proof.
  revert c tok. induction s as [|d s IH]; intros c tok; simpl.
  - destruct (at_boundary _ _); [|discriminate]. by intros [= <-].
  - destruct (in_class d) eqn:Hd.
    + destruct (match_tail d s) as [tok'|] eqn:E.
      * intros [= <-]. constructor; eauto.
      * destruct (at_boundary _ _); [|discriminate]. by intros [= <-].
    + destruct (at_boundary _ _); [|discriminate]. by intros [= <-].
Qed.

(** A match is a non-empty run of class members at the head of the
    subject. *)
Lemma match_at_spec that s tok :
  match_at that s = Some tok ->
  tok <> [] /\ Forall (fun d => in_class d = true) tok /\ exists rest, s = tok ++ rest.
Proof.
  destruct s as [|c s]; simpl; [discriminate|].
  destruct (at_boundary _ _); simpl; [|discriminate].
  destruct (in_class c) eqn:Hc; [|discriminate].
  destruct (match_tail c s) as [tok'|] eqn:E; [|discriminate].
  intros [= <-]. split; [done|]. split.
  - constructor; [done|]. by eapply match_tail_class.
  - destruct (match_tail_prefix _ _ _ E) as [rest ->]. by exists rest.
Qed.

Local Arguments match_at : simpl never.

(** Every match reported by the scan lies in the subject at its offset. *)
Lemma scan_spec s : forall pos that skip p t,
  (p, t) ∈ scan pos that skip s ->
  (pos <= p)%nat /\ t <> [] /\ Forall (fun d => in_class d = true) t /\
  exists pre post, s = pre ++ t ++ post /\ length pre = (p - pos)%nat.
Proof.
  induction s as [|c s IH]; intros pos that skip p t; simpl.
  - by intros ?%elem_of_nil.
  - assert (Hrec : forall that' skip', (p, t) ∈ scan (S pos) that' skip' s ->
      (pos <= p)%nat /\ t <> [] /\ Forall (fun d => in_class d = true) t /\
      exists pre post, c :: s = pre ++ t ++ post /\ length pre = (p - pos)%nat).
    { intros that' skip' Hin.
      destruct (IH _ _ _ _ _ Hin) as (Hle & Hne & Hcl & pre & post & -> & Hlen).
      repeat split; [lia|done|done|].
      exists (c :: pre), post. split; [done|]. simpl. lia. }
    destruct skip as [|k]; [|by apply Hrec].
    destruct (match_at that (c :: s)) as [tok|] eqn:E; [|by apply Hrec].
    intros [[= -> ->]|Hin]%elem_of_cons; [|by eapply Hrec].
    destruct (match_at_spec _ _ _ E) as (Hne & Hcl & rest & Hs).
    repeat split; [lia|done|done|].
    exists [], rest. split; [done|]. simpl. lia.
Qed.


(** The code points of a token are code points of the subject. *)
Lemma findall_chars s t c : t ∈ findall s -> c ∈ t -> c ∈ s.
Proof.
  unfold findall, finditer.
  intros ([p t'] & -> & Hin)%list_elem_of_fmap Hc. simpl in Hc.
  apply scan_spec in Hin as (_ & _ & _ & pre & post & -> & _).
  set_solver.
Qed.

Lemma match_tail_whole w : forall c,
  Forall (fun d => in_class d = true) w ->
  is_word_at (last (c :: w)) = true ->
  match_tail c w = Some w.
Proof.
  induction w as [|d w IH]; intros c Hcl Hlast; simpl.
  - simpl in Hlast. unfold at_boundary. simpl. by rewrite Hlast.
  - apply Forall_cons in Hcl as [Hd Hcl]. rewrite Hd.
    rewrite IH; [done|done|]. by rewrite last_cons_cons in Hlast.
Qed.

Lemma scan_skip_all s : forall pos that skip,
  (length s <= skip)%nat -> scan pos that skip s = [].
Proof.
  induction s as [|c s IH]; intros pos that skip Hlen; simpl; [done|].
  simpl in Hlen. destruct skip as [|k]; [lia|]. apply IH. lia.
Qed.

(** A run of class members that starts and ends with a word character is,
    on its own, one token. *)
Lemma findall_whole w :
  is_word_at (head w) = true -> is_word_at (last w) = true ->
  Forall (fun d => in_class d = true) w ->
  findall w = [w].
Proof.
  destruct w as [|c w]; [done|]. intros Hhd Hlast Hcl.
  apply Forall_cons in Hcl as [Hc Hcl].
  unfold findall, finditer. cbn [scan]. unfold match_at.
  unfold at_boundary at 1. simpl in Hhd. simpl is_word_at. rewrite Hhd, Hc. simpl.
  rewrite match_tail_whole; [|done|].
  - simpl. rewrite scan_skip_all; [done|lia].
  - destruct w; [done|]. by rewrite last_cons_cons in Hlast |- *.
Qed.

End PatternFacts.

(** ** The loop of [detect_keywords] *)

Section DetectFacts.
Variable ks : gset str.

Lemma detect_step_elem found u t :
  t ∈ detect_step ks found u <-> t ∈ found \/ (t = u /\ t ∈ ks).
Proof.
  unfold detect_step.
  destruct (bool_decide_reflect (u ∈ ks)) as [Hk|Hk];
    destruct (bool_decide_reflect (u ∈ found)) as [Hf|Hf]; simpl;
    rewrite ?elem_of_app, ?list_elem_of_singleton; naive_solver.
Qed.

Lemma detect_fold_elem toks : forall found t,
  t ∈ foldl (detect_step ks) found toks <-> t ∈ found \/ (t ∈ toks /\ t ∈ ks).
Proof.
  induction toks as [|u toks IH]; intros found t; simpl.
  - rewrite elem_of_nil. naive_solver.
  - rewrite IH, detect_step_elem, elem_of_cons. naive_solver.
Qed.

Lemma detect_step_NoDup found u : NoDup found -> NoDup (detect_step ks found u).
Proof.
  intros Hnd. unfold detect_step.
  destruct (bool_decide_reflect (u ∈ ks)); simpl; [|done].
  destruct (bool_decide_reflect (u ∈ found)) as [Hf|Hf]; simpl; [done|].
  apply NoDup_app. split; [done|]. split; [|apply NoDup_singleton].
  intros x Hx ->%list_elem_of_singleton. done.
Qed.

Lemma detect_fold_NoDup toks : forall found,
  NoDup found -> NoDup (foldl (detect_step ks) found toks).
Proof.
  induction toks as [|u toks IH]; intros found Hnd; simpl; [done|].
  by apply IH, detect_step_NoDup.
Qed.








End DetectFacts.

(** ** Lowercasing *)

Section LowerFacts.
Context `{UnicodeDB}.

Lemma lower_nil : lower [] = [].
Proof. reflexivity. Qed.

Lemma handle_capital_sigma_cases before after :
  handle_capital_sigma before after = FINAL_SIGMA
  \/ handle_capital_sigma before after = SMALL_SIGMA.
Proof.
  unfold handle_capital_sigma.
  destruct (skip_case_ignorable before) as [c|]; [|by right].
  destruct (is_cased c); [|by right].
  destruct (skip_case_ignorable after) as [c'|]; [|by left].
  destruct (is_cased c'); [by right|by left].
Qed.

Lemma do_lower_lowercase (Hcl : lowercase_closed) s : forall before d,
  d ∈ do_lower before s -> lowercase d.
Proof.
  destruct Hcl as (Hmap & Hfinal & Hsmall).
  induction s as [|c s IH]; intros before d; simpl.
  - by intros ?%elem_of_nil.
  - intros [Hd|Hd]%elem_of_app; [|by eapply IH].
    unfold lower_ucs4 in Hd. destruct (N.eqb_spec c CAPITAL_SIGMA) as [->|Hne].
    + apply list_elem_of_singleton in Hd as ->.
      by destruct (handle_capital_sigma_cases before s) as [-> | ->].
    + by eapply Hmap.
Qed.

Lemma do_lower_fixed t : Forall lowercase t -> forall before, do_lower before t = t.
Proof.
  induction 1 as [|c t [Hne Hc] _ IH]; intros before; simpl; [done|].
  unfold lower_ucs4. rewrite (proj2 (N.eqb_neq _ _) Hne), Hc, IH. done.
Qed.

(** A token of a lowercased text is its own lowercase form. *)
Lemma lower_token (Hcl : lowercase_closed) s t :
  t ∈ findall (lower s) -> lower t = t.
Proof.
  intros Ht. apply do_lower_fixed, Forall_forall. intros c Hc.
  eapply do_lower_lowercase; [done|]. eapply findall_chars; [apply Ht|done].
Qed.

End LowerFacts.

(** Where lowercasing is simple, cutting tokens out of the lowercased text
    and lowercasing the tokens of the text are the same thing. *)
Section SimpleCase.
Context `{UnicodeDB}.

Local Arguments match_at : simpl never.

Lemma simple_case_spec c :
  simple_case c = true ->
  c <> CAPITAL_SIGMA /\ to_lower_full c = [lower1 c]
  /\ is_word (lower1 c) = is_word c /\ in_class (lower1 c) = in_class c.
Proof.
  unfold simple_case, lower1. intros [Hne Hmap]%andb_true_iff.
  apply negb_true_iff, N.eqb_neq in Hne.
  destruct (to_lower_full c) as [|d [|]]; try discriminate.
  apply andb_true_iff in Hmap as [Hw Hc].
  by apply Bool.eqb_prop in Hw, Hc.
Qed.

Lemma do_lower_simple s :
  Forall (fun c => simple_case c = true) s ->
  forall before, do_lower before s = map lower1 s.
Proof.
  induction 1 as [|c s Hc _ IH]; intros before; simpl; [done|].
  destruct (simple_case_spec c Hc) as (Hne & Hmap & _).
  unfold lower_ucs4. rewrite (proj2 (N.eqb_neq _ _) Hne), Hmap, IH. done.
Qed.

Lemma is_word_lower1 c : simple_case c = true -> is_word (lower1 c) = is_word c.
Proof. intros Hc. by destruct (simple_case_spec c Hc) as (_ & _ & -> & _). Qed.

Lemma in_class_lower1 c : simple_case c = true -> in_class (lower1 c) = in_class c.
Proof. intros Hc. by destruct (simple_case_spec c Hc) as (_ & _ & _ & ->). Qed.

Lemma is_word_at_lower1 o :
  from_option (fun c => simple_case c = true) True o ->
  is_word_at (lower1 <$> o) = is_word_at o.
Proof. destruct o as [c|]; simpl; [apply is_word_lower1|done]. Qed.

Lemma match_tail_lower1 s : forall c,
  simple_case c = true -> Forall (fun c => simple_case c = true) s ->
  match_tail (lower1 c) (map lower1 s) = map lower1 <$> match_tail c s.
Proof.
  induction s as [|d s IH]; intros c Hc Hs; simpl.
  - unfold at_boundary. simpl. rewrite is_word_lower1 by done.
    by destruct (negb _).
  - apply Forall_cons in Hs as [Hd Hs].
    unfold at_boundary. simpl. rewrite !is_word_lower1, in_class_lower1 by done.
    rewrite IH by done.
    destruct (in_class d), (match_tail d s), (negb _); done.
Qed.

Lemma match_at_lower1 that s :
  from_option (fun c => simple_case c = true) True that ->
  Forall (fun c => simple_case c = true) s ->
  match_at (lower1 <$> that) (map lower1 s) = map lower1 <$> match_at that s.
Proof.
  intros Hthat Hs. destruct s as [|c s]; [done|].
  apply Forall_cons in Hs as [Hc Hs]. unfold match_at. simpl map.
  unfold at_boundary. simpl is_word_at.
  rewrite is_word_at_lower1, is_word_lower1, in_class_lower1 by done.
  rewrite match_tail_lower1 by done.
  destruct (negb _), (in_class c), (match_tail c s); done.
Qed.

Lemma scan_lower1 s : forall pos that skip,
  from_option (fun c => simple_case c = true) True that ->
  Forall (fun c => simple_case c = true) s ->
  scan pos (lower1 <$> that) skip (map lower1 s)
  = map (fun m => (fst m, map lower1 (snd m))) (scan pos that skip s).
Proof.
  induction s as [|c s IH]; intros pos that skip Hthat Hs; [done|].
  pose proof (match_at_lower1 that (c :: s) Hthat Hs) as Hm.
  apply Forall_cons in Hs as [Hc Hs]. simpl in Hm |- *.
  destruct skip as [|k]; [|by apply (IH _ (Some c))].
  rewrite Hm. destruct (match_at that (c :: s)) as [tok|]; simpl.
  - rewrite length_map. f_equal. by apply (IH _ (Some c)).
  - by apply (IH _ (Some c)).
Qed.

(** The matches of the lowercased text are the matches of the text, at the
    same offsets, lowercased. *)
Lemma finditer_lower s :
  forallb simple_case s = true ->
  finditer (lower s) = map (fun m => (fst m, lower (snd m))) (finditer s).
Proof.
  intros Hs. assert (Hall : Forall (fun c => simple_case c = true) s).
  { apply Forall_forall. intros c Hc%list_elem_of_In.
    by eapply forallb_forall in Hs. }
  unfold lower. rewrite do_lower_simple by done.
  unfold finditer.
  change (scan 0 None 0 (map lower1 s))
    with (scan 0 (lower1 <$> None) 0 (map lower1 s)).
  rewrite (scan_lower1 s 0 None 0 I Hall).
  apply List.map_ext_in. intros [p t] Hin%list_elem_of_In. simpl. f_equal.
  symmetry. apply do_lower_simple, Forall_forall. intros c Hc.
  rewrite Forall_forall in Hall. apply Hall.
  eapply (findall_chars s t); [|done].
  apply list_elem_of_fmap. by exists (p, t).
Qed.

Lemma findall_lower s :
  forallb simple_case s = true ->
  findall (lower s) = map lower (findall s).
Proof.
  intros Hs. unfold findall. rewrite finditer_lower by done.
  by rewrite !map_map.
Qed.

End SimpleCase.

Lemma latin1_lowercase_closed : @lowercase_closed Latin1.
Proof.
  assert (Hfix : forall d, d <> CAPITAL_SIGMA -> latin1_upper d = false ->
                           @lowercase Latin1 d).
  { intros d Hd Hup. split; [done|]. simpl. by rewrite Hup. }
  split; [|split; by apply Hfix].
  intros c d Hc. simpl. destruct (latin1_upper c) eqn:Hup.
  - intros ->%list_elem_of_singleton.
    unfold latin1_upper, in_range in Hup.
    apply Hfix; [unfold CAPITAL_SIGMA|unfold latin1_upper, in_range];
      repeat match goal with
             | |- context [?a <=? ?b] => destruct (N.leb_spec a b)
             | H : context [?a <=? ?b] |- _ => destruct (N.leb_spec a b)
             end; simpl in *; try done; lia.
  - intros ->%list_elem_of_singleton. by apply Hfix.
Qed.

(** In the Latin-1 excerpt the seven letters are alphanumeric already: the
    class is [\w]. *)
Lemma latin1_class_is_word c : @in_class Latin1 c = @is_word Latin1 c.
Proof.
  unfold in_class. destruct (bool_decide_reflect (c ∈ umlauts)) as [Hc|Hc].
  - unfold umlauts in Hc.
    repeat (apply elem_of_cons in Hc as [->|Hc]; [reflexivity|]).
    by apply elem_of_nil in Hc.
  - apply orb_false_r.
Qed.

Lemma latin1_findall_run w :
  w <> [] -> Forall (fun c => @in_class Latin1 c = true) w ->
  @findall Latin1 w = [w].
Proof.
  intros Hne Hcl. rewrite Forall_forall in Hcl.
  apply findall_whole; [| |by apply Forall_forall].
  - destruct (head w) as [c|] eqn:Hhd; [|by apply head_None in Hhd].
    simpl. rewrite <- latin1_class_is_word. by apply Hcl, head_Some_elem_of.
  - destruct (last w) as [c|] eqn:Hlast; [|by apply last_None in Hlast].
    simpl. rewrite <- latin1_class_is_word. by apply Hcl, last_Some_elem_of.
Qed.

(** ** Keyword detection *)

Section DetectKeywords.
Context `{UnicodeDB} `{External}.

Lemma detect_keywords_unfold content s :
  detect_keywords content s =
  (Ok (foldl (detect_step (keyword_set s)) [] (findall (lower content))), s).
Proof. reflexivity. Qed.

Lemma finditer_at s p t :
  (p, t) ∈ finditer s -> take (length t) (drop p s) = t.
Proof.
  intros (_ & _ & _ & pre & post & -> & Hlen)%scan_spec.
  rewrite Nat.sub_0_r in Hlen. subst p.
  by rewrite drop_app_length, take_app_length.
Qed.

End DetectKeywords.

#[local] Existing Instance default_world.

(** C1.  On the index {england} and the text "England spielt heute."
    [detect_keywords] answers ["england"]: the token is cut out of the
    lowercased text, so the casing of the transcript is lost, where the
    specification (and [test_detect_keywords_basic]) expect ["England"]. *)
Theorem detect_keywords_england_lowercased :
  @detect_keywords Latin1 default_world (lit "England spielt heute.")
    (with_keywords {[ lit "england" ]})
  = (Ok [lit "england"], with_keywords {[ lit "england" ]})
  /\ [lit "england"] <> [lit "England"].
Proof. split; [by vm_compute|discriminate]. Qed.

(** C2.  Whenever the lowercase mapping is closed (it only produces code
    points that lowercasing leaves alone), every string [detect_keywords]
    returns is its own lowercase form and a member of [keyword_set]. *)
Theorem detect_keywords_output_lowercase `{UnicodeDB} `{External}
    (Hcl : lowercase_closed) (content : str) (s : state) :
  exists found,
    detect_keywords content s = (Ok found, s)
    /\ forall t, t ∈ found -> lower t = t /\ t ∈ keyword_set s.
Proof.
  eexists. split; [apply detect_keywords_unfold|].
  intros t [?%elem_of_nil|[Htok Hks]]%detect_fold_elem; [done|].
  split; [by eapply lower_token|done].
Qed.

Lemma detect_keywords_output_lowercase_witness :
  exists found,
    @detect_keywords Latin1 default_world (lit "England spielt heute.")
      (with_keywords {[ lit "england" ]})
    = (Ok found, with_keywords {[ lit "england" ]})
    /\ forall t, t ∈ found ->
         lower t = t /\ t ∈ keyword_set (with_keywords {[ lit "england" ]}).
Proof.
  exact (@detect_keywords_output_lowercase Latin1 default_world
           latin1_lowercase_closed (lit "England spielt heute.")
           (with_keywords {[ lit "england" ]})).
Defined.






(** C5.  The seven German letters belong to the token class whatever the
    tables say, so a run of class members that starts and ends with a word
    character is one token, neither split nor skipped; with the Latin-1
    tables, where the seven letters are word characters, that is every
    non-empty run of class members.  The text "Die Größe ist enorm" is cut
    into four tokens, and on the index {größe} it yields exactly one keyword
    whose lowercase form is "größe". *)
Theorem umlauts_are_token_characters :
  (forall U : UnicodeDB, Forall (fun c => in_class c = true) umlauts)
  /\ (forall (U : UnicodeDB) (w : str),
        is_word_at (head w) = true -> is_word_at (last w) = true ->
        Forall (fun c => in_class c = true) w ->
        findall w = [w])
  /\ (forall w : str,
        w <> [] -> Forall (fun c => @in_class Latin1 c = true) w ->
        @findall Latin1 w = [w])
  /\ findall die_groesse_ist_enorm
     = [lit "Die"; lit "Gr" ++ [o_umlaut; sharp_s] ++ lit "e"; lit "ist"; lit "enorm"]
  /\ exists found,
       detect_keywords die_groesse_ist_enorm (with_keywords {[ groesse ]})
       = (Ok found, with_keywords {[ groesse ]})
       /\ found = [groesse]
       /\ length (filter (fun t => lower t = groesse) found) = 1%nat.
Proof.
  split; [|split; [|split; [|split]]].
  - intros U. unfold in_class.
    repeat (constructor; [apply orb_true_iff; right; by vm_compute|]).
    constructor.
  - intros U w. apply findall_whole.
  - apply latin1_findall_run.
  - by vm_compute.
  - eexists. split; [by vm_compute|]. split; [done|]. by vm_compute.
Qed.

Lemma umlauts_are_token_characters_witness :
  findall (lit "Gr" ++ [o_umlaut; sharp_s] ++ lit "e")
  = [lit "Gr" ++ [o_umlaut; sharp_s] ++ lit "e"]
  /\ findall (lit "Stra" ++ [sharp_s] ++ lit "e")
     = [lit "Stra" ++ [sharp_s] ++ lit "e"].
Proof.
  split.
  - apply (proj1 (proj2 umlauts_are_token_characters) Latin1).
    + reflexivity.
    + reflexivity.
    + repeat constructor.
  - apply (proj1 (proj2 (proj2 umlauts_are_token_characters))).
    + discriminate.
    + repeat constructor.
Defined.




(** C7.  Two calls of [detect_keywords] in a row on one text return the
    same list and leave the globals as they were. *)
Theorem detect_keywords_twice (U : UnicodeDB) (E : External) (content : str) (s : state) :
  exists found,
    (let* first := detect_keywords content in
     let* second := detect_keywords content in
     ret (first, second)) s
    = (Ok (found, found), s).
Proof. eexists. reflexivity. Qed.

(** ** Upload validation *)

Section TranscribeFacts.
Context `{UnicodeDB} `{External}.

Lemma validate_file_meta_rejects file s :
  extension file ∉ ALLOWED_EXT ->
  validate_file_meta file s
  = (Raise (HTTPException 400 "Unsupported file extension"), s).
Proof.
  intros Hext. unfold validate_file_meta. fold (extension file).
  by rewrite bool_decide_eq_false_2.
Qed.

Lemma validate_file_meta_accepts file s :
  extension file ∈ ALLOWED_EXT -> validate_file_meta file s = (Ok tt, s).
Proof.
  intros Hext. unfold validate_file_meta. fold (extension file).
  by rewrite bool_decide_eq_true_2.
Qed.

Lemma ensure_size_limit_rejects size s :
  (size > MAX_FILE_SIZE_MB * 1024 * 1024)%Z ->
  ensure_size_limit size s = (Raise (HTTPException 413 "File too large"), s).
Proof.
  intros Hgt. unfold ensure_size_limit.
  by rewrite (proj2 (Z.gtb_gt _ _)) by lia.
Qed.

Lemma ensure_size_limit_accepts size s :
  (size <= MAX_FILE_SIZE_MB * 1024 * 1024)%Z ->
  ensure_size_limit size s = (Ok tt, s).
Proof.
  intros Hle. unfold ensure_size_limit.
  destruct (Z.gtb_spec size (MAX_FILE_SIZE_MB * 1024 * 1024)); [lia|done].
Qed.

Lemma transcribe_empty_filename file s :
  filename file = None \/ filename file = Some [] ->
  transcribe file s = (Raise (HTTPException 400 "Empty filename"), s).
Proof. unfold transcribe. by intros [-> | ->]. Qed.

(** A named upload with a refused extension is answered before anything
    else happens: the state, and with it the trace, is untouched. *)
Lemma transcribe_refused_extension file name s :
  filename file = Some name -> name <> [] ->
  extension file ∉ ALLOWED_EXT ->
  transcribe file s
  = (Raise (HTTPException 400 "Unsupported file extension"), s).
Proof.
  intros Hname Hne Hext. unfold transcribe. rewrite Hname.
  destruct name as [|c name]; [done|].
  unfold bind at 1. by rewrite validate_file_meta_rejects.
Qed.

(** A named upload with an accepted extension and too many bytes is
    answered right after the read. *)
Lemma transcribe_oversized file name s :
  filename file = Some name -> name <> [] ->
  extension file ∈ ALLOWED_EXT ->
  (Z.of_nat (length (contents file)) > MAX_FILE_SIZE_MB * 1024 * 1024)%Z ->
  transcribe file s
  = (Raise (HTTPException 413 "File too large"), add_event EvRead s).
Proof.
  intros Hname Hne Hext Hsize. unfold transcribe. rewrite Hname.
  destruct name as [|c name]; [done|].
  unfold bind at 1. rewrite validate_file_meta_accepts by done.
  unfold try_except, transcribe_try. unfold bind at 1. unfold emit, modify.
  unfold bind at 1. by rewrite ensure_size_limit_rejects.
Qed.

End TranscribeFacts.

(** C8 as stated fails: an upload named "" has no extension, and
    [/transcribe] answers it with the reason "Empty filename", not
    "Unsupported file extension". *)
Lemma transcribe_empty_name_other_reason :
  (extension unnamed_upload ∉ ALLOWED_EXT)
  /\ snd (splitext (default [] (filename unnamed_upload))) = []
  /\ transcribe unnamed_upload initial_state
     = (Raise (HTTPException 400 "Empty filename"), initial_state)
  /\ fst (transcribe unnamed_upload initial_state)
     <> Raise (HTTPException 400 "Unsupported file extension").
Proof.
  split; [|split; [done|split; [done|discriminate]]].
  change (extension unnamed_upload) with (@nil N).
  unfold ALLOWED_EXT. apply not_elem_of_union.
  split; apply not_elem_of_singleton; discriminate.
Qed.

(** C8, amended.  For every upload with a non-empty filename whose extension
    is missing or, compared in lowercase, outside {.wav, .mp3}, [/transcribe]
    fails with 400 "Unsupported file extension" and the state is untouched,
    so no byte of the upload has been read; "audio.txt" is such an upload.
    An upload whose filename is missing or empty fails with 400 and the
    reason "Empty filename". *)
Theorem transcribe_unsupported_extension :
  (forall (U : UnicodeDB) (E : External) (file : UploadFile) (name : str) (s : state),
     filename file = Some name -> name <> [] ->
     lower (snd (splitext name)) ∉ ALLOWED_EXT ->
     transcribe file s
     = (Raise (HTTPException 400 "Unsupported file extension"), s))
  /\ (forall (U : UnicodeDB) (E : External) (file : UploadFile) (name : str) (s : state),
        filename file = Some name -> name <> [] ->
        snd (splitext name) = [] ->
        transcribe file s
        = (Raise (HTTPException 400 "Unsupported file extension"), s))
  /\ (forall (U : UnicodeDB) (E : External) (file : UploadFile) (s : state),
        filename file = None \/ filename file = Some [] ->
        transcribe file s = (Raise (HTTPException 400 "Empty filename"), s))
  /\ (forall (bytes : list N) (s : state),
        transcribe {| filename := Some (lit "audio.txt"); contents := bytes |} s
        = (Raise (HTTPException 400 "Unsupported file extension"), s)).
Proof.
  assert (Hgen : forall (U : UnicodeDB) (E : External) file name (s : state),
    filename file = Some name -> name <> [] ->
    lower (snd (splitext name)) ∉ ALLOWED_EXT ->
    transcribe file s
    = (Raise (HTTPException 400 "Unsupported file extension"), s)).
  { intros U E file name s Hname Hne Hext.
    eapply transcribe_refused_extension; [done|done|].
    unfold extension. by rewrite Hname. }
  assert (Hnil : ([] : str) ∉ ALLOWED_EXT).
  { unfold ALLOWED_EXT. apply not_elem_of_union.
    split; apply not_elem_of_singleton; discriminate. }
  split; [exact Hgen|]. split; [|split].
  - intros U E file name s Hname Hne Hext. eapply Hgen; [done|done|].
    by rewrite Hext.
  - intros U E file s. apply transcribe_empty_filename.
  - intros bytes s. eapply Hgen; [done|done|].
    assert (lower (snd (splitext (lit "audio.txt"))) = lit ".txt") as ->
      by reflexivity.
    unfold ALLOWED_EXT. apply not_elem_of_union.
    split; apply not_elem_of_singleton; discriminate.
Qed.

Lemma transcribe_unsupported_extension_witness :
  transcribe {| filename := Some (lit "notes.TXT"); contents := [82; 73] |} initial_state
  = (Raise (HTTPException 400 "Unsupported file extension"), initial_state)
  /\ transcribe {| filename := Some (lit ".wav"); contents := [82; 73] |} initial_state
     = (Raise (HTTPException 400 "Unsupported file extension"), initial_state)
  /\ transcribe {| filename := None; contents := [82; 73] |} initial_state
     = (Raise (HTTPException 400 "Empty filename"), initial_state).
Proof.
  split; [|split].
  - apply (proj1 transcribe_unsupported_extension Latin1 default_world
             _ (lit "notes.TXT")); [reflexivity|discriminate|].
    assert (lower (snd (splitext (lit "notes.TXT"))) = lit ".txt") as ->
      by reflexivity.
    unfold ALLOWED_EXT. apply not_elem_of_union.
    split; apply not_elem_of_singleton; discriminate.
  - apply (proj1 (proj2 transcribe_unsupported_extension) Latin1 default_world
             _ (lit ".wav")); [reflexivity|discriminate|reflexivity].
  - apply (proj1 (proj2 (proj2 transcribe_unsupported_extension))
             Latin1 default_world). by left.
Defined.

(** C9 as stated fails: an upload named "audio.txt" of 25 MB and one byte is
    answered with 400, not with 413, because the filename is checked first. *)
Lemma transcribe_oversized_txt_is_400 :
  (Z.of_nat (length (contents oversized_txt_upload))
   > MAX_FILE_SIZE_MB * 1024 * 1024)%Z
  /\ transcribe oversized_txt_upload initial_state
     = (Raise (HTTPException 400 "Unsupported file extension"), initial_state)
  /\ fst (transcribe oversized_txt_upload initial_state)
     <> Raise (HTTPException 413 "File too large").
Proof.
  assert (Hrun : transcribe oversized_txt_upload initial_state
    = (Raise (HTTPException 400 "Unsupported file extension"), initial_state)).
  { eapply transcribe_refused_extension; [done|done|].
    assert (extension oversized_txt_upload = lit ".txt") as -> by reflexivity.
    unfold ALLOWED_EXT. apply not_elem_of_union.
    split; apply not_elem_of_singleton; discriminate. }
  split; [|split; [done|rewrite Hrun; discriminate]].
  unfold oversized_txt_upload, contents. rewrite length_replicate, N_nat_Z. reflexivity.
Qed.

(** C9, amended.  For every upload that passes the filename checks (a
    non-empty name with the extension .wav or .mp3) and whose size exceeds
    [MAX_FILE_SIZE_MB * 1024 * 1024] bytes, [/transcribe] fails with 413
    "File too large" right after the read: nothing has been written, decoded
    or transcribed.  [ensure_size_limit] itself refuses every size above the
    ceiling and passes every size up to it. *)
Theorem transcribe_file_too_large :
  (forall (U : UnicodeDB) (E : External) (file : UploadFile) (name : str) (s : state),
     filename file = Some name -> name <> [] ->
     lower (snd (splitext name)) ∈ ALLOWED_EXT ->
     (Z.of_nat (length (contents file)) > MAX_FILE_SIZE_MB * 1024 * 1024)%Z ->
     exists s',
       transcribe file s = (Raise (HTTPException 413 "File too large"), s')
       /\ trace s' = trace s ++ [EvRead]
       /\ keyword_set s' = keyword_set s /\ asr_cache s' = asr_cache s)
  /\ (forall (U : UnicodeDB) (E : External) (size : Z) (s : state),
        (size > MAX_FILE_SIZE_MB * 1024 * 1024)%Z ->
        ensure_size_limit size s = (Raise (HTTPException 413 "File too large"), s))
  /\ (forall (U : UnicodeDB) (E : External) (size : Z) (s : state),
        (size <= MAX_FILE_SIZE_MB * 1024 * 1024)%Z ->
        ensure_size_limit size s = (Ok tt, s)).
Proof.
  split; [|split].
  - intros U E file name s Hname Hne Hext Hsize. exists (add_event EvRead s).
    split; [|done].
    eapply transcribe_oversized; [done|done| |done].
    unfold extension. by rewrite Hname.
  - intros U E size s. apply ensure_size_limit_rejects.
  - intros U E size s. apply ensure_size_limit_accepts.
Qed.

Lemma transcribe_file_too_large_witness :
  (exists s',
     transcribe oversized_mp3_upload initial_state
     = (Raise (HTTPException 413 "File too large"), s')
     /\ trace s' = trace initial_state ++ [EvRead]
     /\ keyword_set s' = keyword_set initial_state
     /\ asr_cache s' = asr_cache initial_state)
  /\ ensure_size_limit 26214401 initial_state
     = (Raise (HTTPException 413 "File too large"), initial_state)
  /\ ensure_size_limit 26214400 initial_state = (Ok tt, initial_state).
Proof.
  split; [|split].
  - apply (proj1 transcribe_file_too_large Latin1 default_world
             _ (lit "clip.MP3")).
    + reflexivity.
    + discriminate.
    + assert (lower (snd (splitext (lit "clip.MP3"))) = lit ".mp3") as ->
        by reflexivity.
      unfold ALLOWED_EXT. apply elem_of_union_r. by apply elem_of_singleton.
    + unfold oversized_mp3_upload, contents.
      rewrite length_replicate, N_nat_Z. reflexivity.
  - apply (proj1 (proj2 transcribe_file_too_large) Latin1 default_world).
    reflexivity.
  - apply (proj2 (proj2 transcribe_file_too_large) Latin1 default_world).
    discriminate.
Defined.

(** ** Keyword loading *)

Section LoadKeywordsFacts.
Context `{UnicodeDB} `{External}.

Lemma load_keywords_returns s : exists s', load_keywords s = (Ok tt, s').
Proof.
  unfold load_keywords, try_except.
  destruct (load_keywords_try s) as [[[]|e] s1]; eauto.
Qed.

(** Whatever the [try] block did to the globals before it raised, the
    handler leaves both empty. *)
Lemma load_keywords_handler s e :
  fst (load_keywords_try s) = Raise e ->
  keyword_set (snd (load_keywords s)) = ∅
  /\ keywords_raw (snd (load_keywords s)) = JArr [].
Proof.
  unfold load_keywords, try_except.
  destruct (load_keywords_try s) as [[[]|e'] s1]; simpl; [discriminate|done].
Qed.

Lemma load_keywords_try_unreadable s e :
  keywords_file = Raise e -> load_keywords_try s = (Raise e, s).
Proof.
  intros Hfile. unfold load_keywords_try, bind at 1, lift. by rewrite Hfile.
Qed.

Lemma lifespan_startup_returns s : exists s', lifespan_startup s = (Ok tt, s').
Proof.
  unfold lifespan_startup, bind at 1.
  destruct (load_keywords_returns s) as [s1 ->].
  unfold try_except, bind.
  destruct (get_asr_pipeline s1) as [[p|e] s2]; eauto.
Qed.

End LoadKeywordsFacts.

(** C10.  [load_keywords] never raises.  When opening or parsing the keyword
    file fails, and more generally when any step of its [try] block
    raises, it leaves [keyword_set] empty and [keywords_raw] the empty list;
    the startup that calls it completes. *)
Theorem load_keywords_failure_gives_empty_index :
  (forall (U : UnicodeDB) (E : External) (s : state),
     exists s', load_keywords s = (Ok tt, s'))
  /\ (forall (U : UnicodeDB) (E : External) (s : state) (e : exn),
        keywords_file = Raise e ->
        keyword_set (snd (load_keywords s)) = ∅
        /\ keywords_raw (snd (load_keywords s)) = JArr [])
  /\ (forall (U : UnicodeDB) (E : External) (s : state) (e : exn),
        fst (load_keywords_try s) = Raise e ->
        keyword_set (snd (load_keywords s)) = ∅
        /\ keywords_raw (snd (load_keywords s)) = JArr [])
  /\ (forall (U : UnicodeDB) (E : External) (s : state),
        exists s', lifespan_startup s = (Ok tt, s')).
Proof.
  split; [|split; [|split]].
  - intros U E s. apply load_keywords_returns.
  - intros U E s e Hfile. apply (load_keywords_handler s e).
    by rewrite (load_keywords_try_unreadable s e Hfile).
  - intros U E s e. apply (load_keywords_handler s e).
  - intros U E s. apply lifespan_startup_returns.
Qed.

Lemma load_keywords_failure_gives_empty_index_witness :
  (keyword_set (snd (@load_keywords Latin1 default_world
                       (with_keywords {[ lit "rot" ]}))) = ∅
   /\ keywords_raw (snd (@load_keywords Latin1 default_world
                           (with_keywords {[ lit "rot" ]}))) = JArr [])
  /\ (keyword_set (snd (@load_keywords Latin1 malformed_world
                          (@initial_state malformed_world))) = ∅
      /\ keywords_raw (snd (@load_keywords Latin1 malformed_world
                              (@initial_state malformed_world))) = JArr []).
Proof.
  split.
  - apply (proj1 (proj2 load_keywords_failure_gives_empty_index)
             Latin1 default_world _ (OtherError "FileNotFoundError")).
    reflexivity.
  - apply (proj1 (proj2 (proj2 load_keywords_failure_gives_empty_index))
             Latin1 malformed_world _ (OtherError "AttributeError")).
    reflexivity.
Defined.

(** * Further properties *)

(** ** The tokenizer *)

Section TokenizerFacts.
Context `{UnicodeDB}.

Local Arguments match_at : simpl never.

Lemma class_false_not_word c : in_class c = false -> is_word c = false.
Proof. unfold in_class. by intros [? _]%orb_false_iff. Qed.

Lemma match_tail_sep a : forall c0 c b,
  in_class c = false -> match_tail c0 (a ++ c :: b) = match_tail c0 a.
Proof.
  induction a as [|d a IH]; intros c0 c b Hc; simpl.
  - rewrite Hc. unfold at_boundary. simpl. by rewrite (class_false_not_word c Hc).
  - by rewrite IH.
Qed.

Lemma match_at_sep that a c b :
  in_class c = false -> match_at that (a ++ c :: b) = match_at that a.
Proof.
  intros Hc. destruct a as [|d a]; unfold match_at; simpl.
  - by rewrite Hc, andb_false_r.
  - by rewrite match_tail_sep.
Qed.

Lemma scan_sep a : forall pos that skip c b,
  in_class c = false ->
  Forall (fun d => in_class d = true) (take skip (a ++ c :: b)) ->
  scan pos that skip (a ++ c :: b)
  = scan pos that skip a ++ scan (pos + length a + 1) (Some c) 0 b.
Proof.
  induction a as [|d a IH]; intros pos that skip c b Hc Hskip.
  - destruct skip as [|k].
    + pose proof (match_at_sep that [] c b Hc) as Hm. cbn [app] in Hm.
      cbn [app scan length]. rewrite Hm. cbn [match_at].
      replace (pos + 0 + 1)%nat with (S pos) by lia. done.
    + simpl in Hskip. apply Forall_cons in Hskip as [Hc' _]. congruence.
  - cbn [app scan length].
    replace (pos + S (length a) + 1)%nat with (S pos + length a + 1)%nat by lia.
    destruct skip as [|k].
    + change (d :: a ++ c :: b) with ((d :: a) ++ c :: b).
      rewrite match_at_sep by done.
      destruct (match_at that (d :: a)) as [tok|] eqn:E.
      * rewrite <- app_comm_cons. f_equal. apply IH; [done|].
        destruct (match_at_spec _ _ _ E) as (Hne & Hcl & rest & Hrest).
        destruct tok as [|e tok]; [done|]. injection Hrest as -> ->.
        apply Forall_cons in Hcl as [_ Hcl]. simpl.
        rewrite Nat.sub_0_r, <- app_assoc, take_app_length. done.
      * apply IH; [done|]. by rewrite take_0.
    + apply IH; [done|]. simpl in Hskip. by apply Forall_cons in Hskip as [_ ?].
Qed.

Lemma scan_that pos that that' skip s :
  is_word_at that = is_word_at that' ->
  scan pos that skip s = scan pos that' skip s.
Proof.
  intros Hw. destruct s as [|c s]; [done|]. cbn [scan].
  destruct skip; [|done].
  assert (match_at that (c :: s) = match_at that' (c :: s)) as ->; [|done].
  unfold match_at, at_boundary. by rewrite Hw.
Qed.

Lemma scan_tokens_shift s : forall pos pos' that skip,
  map snd (scan pos that skip s) = map snd (scan pos' that skip s).
Proof.
  induction s as [|c s IH]; intros pos pos' that skip; [done|]. cbn [scan].
  destruct skip; [|apply IH].
  destruct (match_at that (c :: s)); simpl; [f_equal|]; apply IH.
Qed.

(** A code point outside the class cuts the text: the tokens are those
    before it followed by those after it. *)
Lemma findall_sep a c b :
  in_class c = false -> findall (a ++ c :: b) = findall a ++ findall b.
Proof.
  intros Hc. unfold findall, finditer.
  rewrite scan_sep by (done || by rewrite take_0).
  rewrite map_app. f_equal.
  rewrite (scan_that _ (Some c) None) by (simpl; by apply class_false_not_word).
  apply scan_tokens_shift.
Qed.

Lemma scan_after_skip s : forall pos that skip q u,
  (q, u) ∈ scan pos that skip s -> (pos + skip <= q)%nat.
Proof.
  induction s as [|c s IH]; intros pos that skip q u; simpl.
  - by intros ?%elem_of_nil.
  - destruct skip as [|k].
    + intros (Hle & _)%(scan_spec (c :: s) pos that 0). lia.
    + intros Hin%IH. lia.
Qed.

Lemma scan_disjoint s : forall pos that skip,
  StronglySorted ends_before (scan pos that skip s).
Proof.
  induction s as [|c s IH]; intros pos that skip; simpl; [constructor|].
  destruct skip as [|k]; [|apply IH].
  destruct (match_at that (c :: s)) as [tok|] eqn:E; [|apply IH].
  constructor; [apply IH|].
  apply Forall_forall. intros [q u] Hin%scan_after_skip.
  destruct (match_at_spec _ _ _ E) as (Hne & _).
  unfold ends_before. simpl. destruct tok; [done|]. simpl in *. lia.
Qed.

Lemma scan_within s : forall pos that skip q u,
  (q, u) ∈ scan pos that skip s -> (q + length u <= pos + length s)%nat.
Proof.
  intros pos that skip q u (Hle & _ & _ & pre & post & -> & Hlen)%scan_spec.
  rewrite !length_app. lia.
Qed.

End TokenizerFacts.

(** Text on either side of a code point that is not a class member (a blank,
    a comma, an exclamation mark) is tokenized on its own: the tokens of the
    whole text are the tokens before it followed by the tokens after it. *)
Theorem findall_splits_at_separator (U : UnicodeDB) (a b : str) (c : char) :
  in_class c = false ->
  findall (a ++ c :: b) = findall a ++ findall b
  /\ findall (a ++ [c]) = findall a
  /\ findall (c :: b) = findall b.
Proof.
  intros Hc. split; [by apply findall_sep|]. split.
  - rewrite findall_sep by done. apply app_nil_r.
  - by rewrite (findall_sep [] c b).
Qed.

Lemma findall_splits_at_separator_witness :
  findall (lit "rot" ++ 44 :: lit "blau") = findall (lit "rot") ++ findall (lit "blau")
  /\ findall (lit "rot" ++ [44]) = findall (lit "rot")
  /\ findall (44 :: lit "blau") = findall (lit "blau").
Proof.
  apply (findall_splits_at_separator Latin1). reflexivity.
Defined.

(** The matches [finditer] reports are non-empty runs of class members, each
    the text found at its offset and inside the subject, and each ends
    before the next one starts. *)
Theorem finditer_matches_disjoint (U : UnicodeDB) (s : str) :
  StronglySorted ends_before (finditer s)
  /\ Forall (fun m =>
       snd m <> []
       /\ Forall (fun c => in_class c = true) (snd m)
       /\ take (length (snd m)) (drop (fst m) s) = snd m
       /\ (fst m + length (snd m) <= length s)%nat) (finditer s).
Proof.
  split; [apply scan_disjoint|].
  apply Forall_forall. intros [p t] Hin. simpl.
  pose proof (scan_within _ _ _ _ _ _ Hin) as Hlen.
  pose proof (finditer_at (H:=U) s p t Hin) as Hat.
  apply scan_spec in Hin as (_ & Hne & Hcl & _). done.
Qed.

(** ** More on keyword detection *)

Section DetectMore.
Variable ks : gset str.

Lemma detect_fold_sublist toks :
  foldl (detect_step ks) [] toks `sublist_of` toks.
Proof.
  induction toks as [|t toks IH] using rev_ind; [done|].
  rewrite foldl_app. simpl. unfold detect_step at 1.
  destruct (_ && _).
  - by apply sublist_app.
  - by apply sublist_inserts_r.
Qed.

Lemma detect_fold_prefix toks : forall found,
  found `prefix_of` foldl (detect_step ks) found toks.
Proof.
  induction toks as [|t toks IH]; intros found; simpl; [done|].
  etrans; [|apply IH]. unfold detect_step.
  destruct (_ && _); [by apply prefix_app_r|done].
Qed.

Lemma detect_fold_bounded toks :
  (length (foldl (detect_step ks) [] toks) <= size ks)%nat.
Proof.
  unfold size, set_size. simpl. apply submseteq_length, NoDup_submseteq.
  - apply detect_fold_NoDup, NoDup_nil_2.
  - intros t [?%elem_of_nil|[_ Ht]]%detect_fold_elem; [done|].
    by apply elem_of_elements.
Qed.

End DetectMore.

(** The output of [detect_keywords] is a subsequence of the tokens of the
    lowercased text, and it is never longer than the index is large. *)
Theorem detect_keywords_subsequence (U : UnicodeDB) (E : External)
    (content : str) (s : state) :
  exists found,
    detect_keywords content s = (Ok found, s)
    /\ found `sublist_of` findall (lower content)
    /\ (length found <= size (keyword_set s))%nat
    /\ (length found <= length (findall (lower content)))%nat.
Proof.
  eexists. split; [apply detect_keywords_unfold|].
  split; [apply detect_fold_sublist|]. split; [apply detect_fold_bounded|].
  apply sublist_length, detect_fold_sublist.
Qed.

(** More text after a separator only adds keywords at the end: when
    lowercasing is simple at every code point of the whole text (none is the
    capital sigma, and each lowers to one code point that is a word
    character, and a class member, exactly when it is), the keywords
    detected in [a] are a prefix of those detected in [a], a code point
    outside the class, and [b]. *)
Theorem detect_keywords_prefix_of_longer_text (U : UnicodeDB) (E : External)
    (a b : str) (c : char) (s : state) :
  forallb simple_case (a ++ c :: b) = true ->
  in_class c = false ->
  exists found_a found,
    detect_keywords a s = (Ok found_a, s)
    /\ detect_keywords (a ++ c :: b) s = (Ok found, s)
    /\ found_a `prefix_of` found.
Proof.
  intros Hsimple Hc. do 2 eexists.
  split; [apply detect_keywords_unfold|]. split; [apply detect_keywords_unfold|].
  assert (Ha : forallb simple_case a = true).
  { rewrite forallb_app in Hsimple. by apply andb_true_iff in Hsimple as [? _]. }
  rewrite (findall_lower (a ++ c :: b)), findall_sep, map_app by done.
  rewrite foldl_app, <- (findall_lower a) by done.
  apply detect_fold_prefix.
Qed.

Lemma detect_keywords_prefix_of_longer_text_witness :
  exists found_a found,
    detect_keywords (lit "Rot") (with_keywords {[ lit "rot"; lit "blau" ]})
    = (Ok found_a, with_keywords {[ lit "rot"; lit "blau" ]})
    /\ detect_keywords (lit "Rot" ++ 32 :: lit "und BLAU")
         (with_keywords {[ lit "rot"; lit "blau" ]})
       = (Ok found, with_keywords {[ lit "rot"; lit "blau" ]})
    /\ found_a `prefix_of` found.
Proof.
  apply (detect_keywords_prefix_of_longer_text Latin1 default_world).
  - by vm_compute.
  - reflexivity.
Defined.

(** ** More on keyword loading *)

Section LoadMore.
Context `{UnicodeDB} `{External}.

Lemma lower_all_strings l :
  lower_all (JStr <$> l) = Ok (list_to_set (lower <$> l)).
Proof.
  induction l as [|k l IH]; [done|].
  rewrite !fmap_cons. cbn [lower_all py_lower]. by rewrite IH.
Qed.

Lemma lower_all_inv items ks :
  lower_all items = Ok ks -> exists l, items = JStr <$> l.
Proof.
  revert ks. induction items as [|k items IH]; intros ks; simpl.
  - by exists [].
  - destruct k as [| | |k| |]; simpl; try discriminate.
    destruct (lower_all items) as [acc|]; [|discriminate].
    intros _. destruct (IH acc eq_refl) as [l ->]. by exists (k :: l).
Qed.

Lemma raw_strings_items l : raw_strings (JArr (JStr <$> l)) = Some l.
Proof.
  unfold raw_strings. induction l as [|k l IH]; [done|].
  rewrite fmap_cons. cbn [mapM]. rewrite IH. done.
Qed.

(** What iterating the value yields, as strings, is what [raw_strings]
    gives, up to the repetition of a key a dict does not have. *)
Lemma py_iter_strings raw l :
  py_iter raw = Ok (JStr <$> l) ->
  exists l', raw_strings raw = Some l' /\ forall k, k ∈ l' <-> k ∈ l.
Proof.
  destruct raw as [| | |r|items|members]; simpl; try discriminate.
  - intros [= Heq]. exists ((fun c => [c]) <$> r). split; [done|].
    assert (l = (fun c => [c]) <$> r) as ->; [|done].
    revert l Heq. induction r as [|c r IH]; intros [|k l]; simpl; try done.
    intros [= <- Heq]. f_equal. by apply IH.
  - intros [= ->]. exists l. split; [apply raw_strings_items|done].
  - intros [= Heq]. exists (remove_dups (fst <$> members)). split; [done|].
    assert (l = fst <$> members) as ->.
    { revert l Heq. induction members as [|[k v] m IH]; intros [|k' l]; simpl;
        try done. intros [= <- Heq]. f_equal. by apply IH. }
    intros k. apply elem_of_remove_dups.
Qed.

Lemma load_keywords_loaded s j raw l :
  keywords_file = Ok j ->
  py_get j (lit "keywords") (JArr []) = Ok raw ->
  py_iter raw = Ok (JStr <$> l) ->
  load_keywords s
  = (Ok tt,
     add_event (LogLoaded (size (list_to_set (lower <$> l) : gset str)))
       (set_keyword_set (list_to_set (lower <$> l)) (set_keywords_raw raw s))).
Proof.
  intros Hfile Hget Hiter.
  unfold load_keywords, try_except, load_keywords_try, bind, lift, modify, emit,
    modify.
  rewrite Hfile. lazy beta iota. rewrite Hget. lazy beta iota.
  rewrite Hiter. lazy beta iota. rewrite lower_all_strings. done.
Qed.

(** After [load_keywords], whatever the file and the state before, the index
    is the set of the lowercase forms of the strings [keywords_raw] holds. *)
Lemma load_keywords_index s :
  exists l,
    raw_strings (keywords_raw (snd (load_keywords s))) = Some l
    /\ forall t, t ∈ keyword_set (snd (load_keywords s))
                 <-> exists k, k ∈ l /\ lower k = t.
Proof.
  assert (Hfail : exists l : list str,
    raw_strings (JArr []) = Some l
    /\ forall t, t ∈ (∅ : gset str) <-> exists k, k ∈ l /\ lower k = t).
  { exists []. split; [done|]. intros t. rewrite elem_of_empty.
    split; [done|]. by intros (k & ?%elem_of_nil & _). }
  destruct keywords_file as [j|e] eqn:Hfile.
  2:{ unfold load_keywords, try_except, load_keywords_try, bind, lift.
      rewrite Hfile. exact Hfail. }
  destruct (py_get j (lit "keywords") (JArr [])) as [raw|e] eqn:Hget.
  2:{ unfold load_keywords, try_except, load_keywords_try, bind, lift.
      rewrite Hfile, Hget. exact Hfail. }
  destruct (py_iter raw) as [items|e] eqn:Hiter.
  2:{ unfold load_keywords, try_except, load_keywords_try, bind, lift, modify.
      rewrite Hfile, Hget, Hiter. exact Hfail. }
  destruct (lower_all items) as [found|e] eqn:Hall.
  2:{ unfold load_keywords, try_except, load_keywords_try, bind, lift, modify.
      rewrite Hfile, Hget, Hiter, Hall. exact Hfail. }
  destruct (lower_all_inv _ _ Hall) as [l ->].
  rewrite (load_keywords_loaded s j raw l) by done. simpl.
  destruct (py_iter_strings raw l Hiter) as (l' & Hraw & Hl').
  exists l'. split; [done|]. intros t.
  rewrite elem_of_list_to_set, list_elem_of_fmap. naive_solver.
Qed.

Lemma lower_lower (Hcl : lowercase_closed) s : lower (lower s) = lower s.
Proof.
  apply do_lower_fixed, Forall_forall. intros c Hc.
  by eapply do_lower_lowercase.
Qed.

End LoadMore.

(** From a file whose "keywords" member is a list of strings,
    [load_keywords] keeps the list as it is and makes the index the set of
    their lowercase forms, replacing whatever was loaded before; it logs the
    size of the index and no failure. *)
Theorem load_keywords_from_listing (U : UnicodeDB) (E : External)
    (members : list (str * json)) (ks : list str) (s : state) :
  keywords_file = Ok (JObj members) ->
  dict_lookup (lit "keywords") members = Some (JArr (JStr <$> ks)) ->
  exists s',
    load_keywords s = (Ok tt, s')
    /\ keywords_raw s' = JArr (JStr <$> ks)
    /\ (forall t, t ∈ keyword_set s' <-> exists k, k ∈ ks /\ lower k = t)
    /\ trace s' = trace s ++ [LogLoaded (size (keyword_set s'))]
    /\ asr_cache s' = asr_cache s.
Proof.
  intros Hfile Hget. eexists. split.
  - apply (load_keywords_loaded s (JObj members) (JArr (JStr <$> ks)) ks);
      [done| |done]. simpl. by rewrite Hget.
  - simpl. repeat split; try done.
    + intros (k & -> & Hk)%elem_of_list_to_set%list_elem_of_fmap. eauto.
    + intros (k & Hk & <-). apply elem_of_list_to_set, list_elem_of_fmap. eauto.
Qed.

Lemma load_keywords_from_listing_witness :
  exists s',
    @load_keywords Latin1 (keywords_world [lit "Rot"; lit "Blau"])
      (@with_keywords (keywords_world [lit "Rot"; lit "Blau"]) {[ lit "alt" ]})
    = (Ok tt, s')
    /\ keywords_raw s' = JArr (JStr <$> [lit "Rot"; lit "Blau"])
    /\ (forall t, t ∈ keyword_set s'
                  <-> exists k, k ∈ [lit "Rot"; lit "Blau"] /\ lower k = t)
    /\ trace s'
       = trace (@with_keywords (keywords_world [lit "Rot"; lit "Blau"]) {[ lit "alt" ]})
         ++ [LogLoaded (size (keyword_set s'))]
    /\ asr_cache s'
       = asr_cache (@with_keywords (keywords_world [lit "Rot"; lit "Blau"]) {[ lit "alt" ]}).
Proof.
  apply (load_keywords_from_listing Latin1 (keywords_world [lit "Rot"; lit "Blau"])
           [(lit "keywords", JArr (JStr <$> [lit "Rot"; lit "Blau"]))]).
  - reflexivity.
  - reflexivity.
Defined.

(** A file that is an object without a "keywords" member is not a failure:
    [load_keywords] takes the default, the empty list, and logs an index of
    size 0. *)
Theorem load_keywords_missing_key (U : UnicodeDB) (E : External)
    (members : list (str * json)) (s : state) :
  keywords_file = Ok (JObj members) ->
  dict_lookup (lit "keywords") members = None ->
  load_keywords s
  = (Ok tt, add_event (LogLoaded 0)
              (set_keyword_set ∅ (set_keywords_raw (JArr []) s))).
Proof.
  intros Hfile Hget.
  rewrite (load_keywords_loaded s (JObj members) (JArr []) []); [done|done| |done].
  simpl. by rewrite Hget.
Qed.

Lemma load_keywords_missing_key_witness :
  @load_keywords Latin1
    (demo_world 25 (Ok (JObj [(lit "words", JArr [JStr (lit "rot")])])) [])
    (@with_keywords
       (demo_world 25 (Ok (JObj [(lit "words", JArr [JStr (lit "rot")])])) [])
       {[ lit "alt" ]})
  = (Ok tt,
     add_event (LogLoaded 0)
       (set_keyword_set ∅
          (set_keywords_raw (JArr [])
             (@with_keywords
                (demo_world 25 (Ok (JObj [(lit "words", JArr [JStr (lit "rot")])])) [])
                {[ lit "alt" ]})))).
Proof.
  apply (load_keywords_missing_key Latin1
           (demo_world 25 (Ok (JObj [(lit "words", JArr [JStr (lit "rot")])])) [])
           [(lit "words", JArr [JStr (lit "rot")])]).
  - reflexivity.
  - reflexivity.
Defined.

(** After [load_keywords], from any state and whatever the keyword file
    holds or fails with, [keywords_raw] iterates into strings and the index
    is exactly the set of their lowercase forms. *)
Theorem load_keywords_index_matches_listing (U : UnicodeDB) (E : External) (s : state) :
  exists l,
    raw_strings (keywords_raw (snd (load_keywords s))) = Some l
    /\ forall t, t ∈ keyword_set (snd (load_keywords s))
                 <-> exists k, k ∈ l /\ lower k = t.
Proof. apply load_keywords_index. Qed.

(** With a closed lowercase mapping every entry of the index that
    [load_keywords] leaves is its own lowercase form. *)
Theorem load_keywords_index_lowercase (U : UnicodeDB) (E : External)
    (Hcl : lowercase_closed) (s : state) (t : str) :
  t ∈ keyword_set (snd (load_keywords s)) -> lower t = t.
Proof.
  destruct (load_keywords_index s) as (l & _ & Hset).
  intros (k & _ & <-)%Hset. by apply lower_lower.
Qed.

Lemma load_keywords_index_lowercase_witness :
  lower (lit "rot") = lit "rot".
Proof.
  apply (load_keywords_index_lowercase Latin1 (keywords_world [lit "Rot"; lit "Blau"])
           latin1_lowercase_closed
           (@initial_state (keywords_world [lit "Rot"; lit "Blau"]))).
  assert (keyword_set (snd (@load_keywords Latin1 (keywords_world [lit "Rot"; lit "Blau"])
            (@initial_state (keywords_world [lit "Rot"; lit "Blau"]))))
          = {[ lit "rot"; lit "blau" ]}) as -> by reflexivity.
  apply elem_of_union_l. by apply elem_of_singleton.
Defined.


(** ** The keyword listing *)

Section SortedFacts.

Lemma str_leb_total a : forall b, str_leb a b = true \/ str_leb b a = true.
Proof.
  induction a as [|x a IH]; intros [|y b]; simpl; auto.
  destruct (N.ltb_spec x y), (N.ltb_spec y x); auto; try lia.
  assert (x = y) as -> by lia. rewrite N.eqb_refl. apply IH.
Qed.

Lemma str_leb_trans a : forall b c,
  str_leb a b = true -> str_leb b c = true -> str_leb a c = true.
Proof.
  induction a as [|x a IH]; intros [|y b] [|z c]; simpl; try done.
  destruct (N.ltb_spec x y), (N.ltb_spec y z), (N.ltb_spec x z); try done;
    try lia;
    destruct (N.eqb_spec x y), (N.eqb_spec y z), (N.eqb_spec x z); try done;
    try lia.
  apply IH.
Qed.

Lemma str_leb_antisym a : forall b,
  str_leb a b = true -> str_leb b a = true -> a = b.
Proof.
  induction a as [|x a IH]; intros [|y b]; simpl; try done.
  destruct (N.ltb_spec x y), (N.ltb_spec y x), (N.eqb_spec x y), (N.eqb_spec y x);
    try done; try lia.
  subst y. intros ??. f_equal. by apply IH.
Qed.

#[export] Instance str_le_total : Total str_le.
Proof. intros a b. apply str_leb_total. Qed.

#[export] Instance str_le_trans : Transitive str_le.
Proof. intros a b c. apply str_leb_trans. Qed.

#[export] Instance str_le_antisym : AntiSymm (=) str_le.
Proof. intros a b. apply str_leb_antisym. Qed.

Lemma sorted_spec l : StronglySorted str_le (sorted l) /\ sorted l ≡ₚ l.
Proof.
  split; [apply StronglySorted_merge_sort; apply _|apply merge_sort_Permutation].
Qed.

End SortedFacts.

(** After [load_keywords], from any state and with any keyword file,
    [GET /keywords] answers normally with the strings of [keywords_raw] in
    ascending order: each of them as often as it is there, none changed, none
    added, and the state is left as it was.  The answer is the only
    ascending arrangement of these strings. *)
Theorem list_keywords_after_load (U : UnicodeDB) (E : External)
    (untyped_listing : json -> M (list str)) (s : state) :
  exists l listing s',
    load_keywords s = (Ok tt, s')
    /\ raw_strings (keywords_raw s') = Some l
    /\ list_keywords untyped_listing s' = (Ok listing, s')
    /\ StronglySorted str_le listing
    /\ listing ≡ₚ l
    /\ forall other, StronglySorted str_le other -> other ≡ₚ l -> other = listing.
Proof.
  destruct (load_keywords_index s) as (l & Hraw & _).
  destruct (load_keywords_returns s) as [s' Hload]. rewrite Hload in Hraw.
  simpl in Hraw. exists l, (sorted l), s'. split; [done|]. split; [done|].
  destruct (sorted_spec l) as [Hsorted Hperm].
  split; [|split; [done|split; [done|]]].
  - unfold list_keywords, bind, gets. by rewrite Hraw.
  - intros other Hother Hp. eapply StronglySorted_unique; [apply _|done|done|].
    by rewrite Hp, Hperm.
Qed.

Lemma list_keywords_after_load_witness :
  exists l listing s',
    @load_keywords Latin1 (keywords_world [lit "rot"; lit "Blau"])
      (@initial_state (keywords_world [lit "rot"; lit "Blau"])) = (Ok tt, s')
    /\ raw_strings (keywords_raw s') = Some l
    /\ list_keywords (fun _ => raise (OtherError "TypeError")) s' = (Ok listing, s')
    /\ [lit "Blau"; lit "rot"] = listing.
Proof.
  destruct (list_keywords_after_load Latin1 (keywords_world [lit "rot"; lit "Blau"])
              (fun _ => raise (OtherError "TypeError"))
              (@initial_state (keywords_world [lit "rot"; lit "Blau"])))
    as (l & listing & s' & Hload & Hraw & Hlist & _ & _ & Hunique).
  exists l, listing, s'. split; [exact Hload|]. split; [exact Hraw|].
  split; [exact Hlist|]. apply Hunique.
  - repeat constructor.
  - injection Hload as <-. injection Hraw as <-. apply Permutation_swap.
Defined.

(** ** The model cache *)

(** Destructs, innermost first, whatever the goal still branches on. *)
Ltac run_step :=
  match goal with
  | |- context [match ?x with _ => _ end] =>
      lazymatch x with
      | context [match _ with _ => _ end] => fail
      | _ => destruct x eqn:?
      end
  end.

Ltac run_service :=
  unfold transcribe, validate_file_meta, transcribe_try, with_tmpdir,
    ensure_size_limit, get_asr_pipeline, detect_keywords, try_except, bind,
    emit, modify, lift, gets, raise, ret;
  repeat (run_step; simpl).

(** Once [get_asr_pipeline] has returned a pipeline it keeps returning that
    one without building it again: the next call changes nothing, not even
    the trace. *)
Theorem get_asr_pipeline_cached (U : UnicodeDB) (E : External)
    (s s' : state) (p : Pipe) :
  get_asr_pipeline s = (Ok p, s') ->
  asr_cache s' = Some p /\ get_asr_pipeline s' = (Ok p, s').
Proof.
  intros Hrun.
  assert (Hcache : asr_cache s' = Some p).
  { revert Hrun. run_service; by intros [= <- <-]. }
  split; [done|].
  unfold get_asr_pipeline, bind, gets, ret. by rewrite Hcache.
Qed.

Lemma get_asr_pipeline_cached_witness :
  asr_cache (snd (get_asr_pipeline initial_state)) = Some tt
  /\ get_asr_pipeline (snd (get_asr_pipeline initial_state))
     = (Ok tt, snd (get_asr_pipeline initial_state)).
Proof.
  apply (get_asr_pipeline_cached Latin1 default_world initial_state).
  reflexivity.
Defined.

(** [get_asr_pipeline] fails exactly when nothing is cached and building the
    pipeline raises; it then raises the [RuntimeError] "Model initialization
    failed", whatever was raised, and caches nothing, so that the next call
    builds again.  Failing to force the decoder to German is not a
    failure. *)
Theorem get_asr_pipeline_failure (U : UnicodeDB) (E : External) (s : state) :
  (forall e s', get_asr_pipeline s = (Raise e, s') ->
     e = RuntimeError "Model initialization failed"
     /\ asr_cache s = None /\ asr_cache s' = None
     /\ exists e0, pipeline = Raise e0)
  /\ (forall e0, asr_cache s = None -> pipeline = Raise e0 ->
        exists s', get_asr_pipeline s
                   = (Raise (RuntimeError "Model initialization failed"), s'))
  /\ (forall p0, pipeline = Ok p0 ->
        exists p s', get_asr_pipeline s = (Ok p, s')).
Proof.
  split; [|split].
  - intros e s'. run_service; intros [= <- <-]; simpl; eauto.
  - intros e0 Hcache Hpipe. run_service; try congruence; eauto.
  - intros p0 Hpipe. run_service; try congruence; eauto.
Qed.

Lemma get_asr_pipeline_failure_witness :
  (exists s', @get_asr_pipeline offline_world (@initial_state offline_world)
              = (Raise (RuntimeError "Model initialization failed"), s'))
  /\ (exists p s', @get_asr_pipeline default_world initial_state = (Ok p, s')).
Proof.
  split.
  - apply (proj1 (proj2 (get_asr_pipeline_failure Latin1 offline_world
                           (@initial_state offline_world)))
             (OtherError "OSError")); reflexivity.
  - apply (proj2 (proj2 (get_asr_pipeline_failure Latin1 default_world
                           initial_state)) tt). reflexivity.
Defined.

(** ** The request handler *)

Section StripFacts.
Context `{UnicodeDB}.

Lemma head_rev (y : str) : head (rev y) = last y.
Proof.
  induction y as [|a y _] using rev_ind; [done|].
  by rewrite rev_unit, last_snoc.
Qed.

Lemma last_rev (y : str) : last (rev y) = head y.
Proof. destruct y as [|a y]; [done|]. simpl. by rewrite last_snoc. Qed.

Lemma lstrip_head x c : head (lstrip x) = Some c -> isspace c = false.
Proof.
  induction x as [|d x IH]; simpl; [done|].
  destruct (isspace d) eqn:Hd; [done|]. simpl. by intros [= <-].
Qed.

Lemma lstrip_last x : lstrip x <> [] -> last (lstrip x) = last x.
Proof.
  induction x as [|d x IH]; simpl; [done|].
  destruct (isspace d); [|done]. intros Hne. rewrite IH by done.
  destruct x; [done|]. by rewrite last_cons_cons.
Qed.

Lemma lstrip_blank x : forallb isspace x = true -> lstrip x = [].
Proof.
  induction x as [|d x IH]; simpl; [done|].
  intros [-> Hx]%andb_true_iff. by apply IH.
Qed.

(** [strip] leaves no whitespace at either end. *)
Lemma strip_ends x c :
  head (strip x) = Some c \/ last (strip x) = Some c -> isspace c = false.
Proof.
  unfold strip. rewrite head_rev, last_rev. intros [Hc|Hc].
  - destruct (lstrip (rev (lstrip x))) eqn:E; [done|].
    rewrite <- E, lstrip_last, last_rev in Hc by (rewrite E; done).
    by eapply lstrip_head.
  - by eapply lstrip_head.
Qed.

Lemma strip_blank x : forallb isspace x = true -> strip x = [].
Proof. intros Hx. unfold strip. by rewrite (lstrip_blank x Hx). Qed.

End StripFacts.

(** [transcribe] never changes the keyword index, and never drops or
    replaces a pipeline that is cached. *)
Theorem transcribe_keeps_index (U : UnicodeDB) (E : External)
    (file : UploadFile) (s : state) :
  keyword_set (snd (transcribe file s)) = keyword_set s
  /\ keywords_raw (snd (transcribe file s)) = keywords_raw s
  /\ forall p, asr_cache s = Some p -> asr_cache (snd (transcribe file s)) = Some p.
Proof.
  split; [|split; [|intros p]]; run_service; try done; congruence.
Qed.

(** Whatever goes wrong, [transcribe] raises an [HTTPException]; when the
    collaborators raise none of their own, its status is 400, 413 or 500. *)
Theorem transcribe_raises_http (U : UnicodeDB) (E : External)
    (file : UploadFile) (s : state) (e : exn) :
  fst (transcribe file s) = Raise e ->
  is_http e = true
  /\ (collaborators_raise_no_http ->
      exists status detail,
        e = HTTPException status detail
        /\ (status = 400 \/ status = 413 \/ status = 500)%Z).
Proof.
  intros Hrun. split.
  - revert Hrun. run_service; by intros [= <-].
  - intros (Hwrite & Hdecode & Hexport & Hinfer). revert Hrun.
    run_service; intros [= <-]; eauto 6;
      match goal with
      | Hr : _ = Raise (HTTPException _ _) |- _ =>
          first [apply Hwrite in Hr | apply Hdecode in Hr
                | apply Hexport in Hr | apply Hinfer in Hr]; discriminate
      end.
Qed.

Lemma transcribe_raises_http_witness :
  is_http (HTTPException 500 "Internal Server Error") = true
  /\ exists status detail,
       HTTPException 500 "Internal Server Error" = HTTPException status detail
       /\ (status = 400 \/ status = 413 \/ status = 500)%Z.
Proof.
  destruct (transcribe_raises_http Latin1 deaf_world clip_upload
              (@initial_state deaf_world)
              (HTTPException 500 "Internal Server Error") eq_refl) as [Hhttp Hstatus].
  split; [exact Hhttp|]. apply Hstatus.
  repeat split; simpl; intros;
    match goal with
    | Hr : _ = Raise _ |- _ =>
        first [discriminate Hr | injection Hr as <-; reflexivity]
    end.
Defined.

(** The events of one [transcribe] call: the temporary directory is removed
    as often as it is created, on every way out, and a request that finds a
    pipeline cached does not build the model. *)
Theorem transcribe_cleans_up (U : UnicodeDB) (E : External)
    (file : UploadFile) (s : state) :
  exists evs,
    trace (snd (transcribe file s)) = trace s ++ evs
    /\ length (List.filter is_tmpdir evs) = length (List.filter is_cleanup evs)
    /\ (length (List.filter is_tmpdir evs) <= 1)%nat
    /\ (is_Some (asr_cache s) -> List.filter is_load_model evs = []).
Proof.
  run_service; rewrite <- ?app_assoc; simpl;
    first [ exists []; split; [by rewrite app_nil_r|]
          | eexists; split; [reflexivity|] ]; simpl;
    (split; [done|split; [lia|]]); intros [p0 Hp]; try done; congruence.
Qed.

(** A request that succeeds has passed both checks, its keywords are what
    the detection gives on its text with the index as it was, its text has no
    whitespace at either end, and it leaves a pipeline cached. *)
Theorem transcribe_success (U : UnicodeDB) (E : External)
    (file : UploadFile) (s s' : state) (resp : TranscribeResponse) :
  transcribe file s = (Ok resp, s') ->
  (exists name, filename file = Some name /\ name <> [])
  /\ extension file ∈ ALLOWED_EXT
  /\ (Z.of_nat (length (contents file)) <= MAX_FILE_SIZE_MB * 1024 * 1024)%Z
  /\ keywords resp
     = foldl (detect_step (keyword_set s)) [] (findall (lower (text resp)))
  /\ (forall c, head (text resp) = Some c \/ last (text resp) = Some c ->
                isspace c = false)
  /\ is_Some (asr_cache s').
Proof.
  unfold extension. run_service; intros [= <- <-]; simpl.
  all: repeat match goal with
         | Hb : bool_decide _ = true |- _ => apply bool_decide_eq_true in Hb
         end.
  all: repeat split; eauto using strip_ends.
  all: match goal with
       | Hz : (?a >? ?b)%Z = false |- _ => destruct (Z.gtb_spec a b); [done|lia]
       end.
Qed.

Lemma transcribe_success_witness :
  (exists name, filename clip_upload = Some name /\ name <> [])
  /\ extension clip_upload ∈ ALLOWED_EXT
  /\ (Z.of_nat (length (contents clip_upload)) <= MAX_FILE_SIZE_MB * 1024 * 1024)%Z
  /\ [lit "rot"; lit "blau"]
     = foldl (detect_step (keyword_set (with_keywords {[ lit "rot"; lit "blau" ]}))) []
         (findall (lower (lit "Der Ball ist rot und blau.")))
  /\ (forall c, head (lit "Der Ball ist rot und blau.") = Some c
                \/ last (lit "Der Ball ist rot und blau.") = Some c ->
                isspace c = false)
  /\ is_Some (asr_cache (snd (transcribe clip_upload
                                (with_keywords {[ lit "rot"; lit "blau" ]})))).
Proof.
  apply (transcribe_success Latin1 default_world clip_upload
           (with_keywords {[ lit "rot"; lit "blau" ]})
           (snd (transcribe clip_upload (with_keywords {[ lit "rot"; lit "blau" ]})))
           {| text := lit "Der Ball ist rot und blau.";
              keywords := [lit "rot"; lit "blau"] |}).
  by vm_compute.
Defined.

(** Turns the hypotheses on an admitted upload into the tests the handler
    makes. *)
Ltac admit_upload Hadm :=
  let Hname := fresh "Hname" in
  let Hne := fresh "Hne" in
  let Hext := fresh "Hext" in
  let Hsize := fresh "Hsize" in
  destruct Hadm as (Hname & Hne & Hext & Hsize);
  unfold extension in Hext; rewrite Hname in Hext; simpl in Hext;
  match type of Hext with
  | ?P => assert (bool_decide P = true) by (by apply bool_decide_eq_true_2)
  end;
  apply Z.le_ngt in Hsize;
  match type of Hsize with
  | ~ (?b < ?a)%Z =>
      assert ((a >? b)%Z = false) by (destruct (Z.gtb_spec a b); [lia|done])
  end.

(** An admitted upload that the decoder refuses is answered with what
    [as_http] makes of the decoder's exception (500 for the errors of its
    own), the temporary directory is removed, and the model is neither built
    nor run. *)
Theorem transcribe_undecodable (U : UnicodeDB) (E : External)
    (file : UploadFile) (name : str) (s : state) (e : exn) :
  admitted file name ->
  write_raw name (contents file) = Ok tt ->
  from_file name (contents file) = Raise e ->
  exists evs,
    fst (transcribe file s) = Raise (as_http e)
    /\ trace (snd (transcribe file s))
       = trace s ++ [EvRead; EvTmpDir; EvWriteRaw; EvDecode; EvCleanup] ++ evs
    /\ List.filter is_load_model evs = []
    /\ List.filter is_infer evs = []
    /\ asr_cache (snd (transcribe file s)) = asr_cache s.
Proof.
  intros Hadm Hwrite Hdecode. admit_upload Hadm.
  destruct name as [|c name]; [done|].
  unfold transcribe. rewrite Hname.
  unfold validate_file_meta. rewrite Hname. simpl default.
  run_service; try congruence; rewrite <- ?app_assoc; simpl.
  all: injection Hdecode as <-; simpl.
  all: first [ by exists [] | by eexists [_] ].
Qed.

Lemma transcribe_undecodable_witness :
  exists evs,
    fst (@transcribe Latin1 deaf_world clip_upload (@initial_state deaf_world))
    = Raise (as_http (OtherError "CouldntDecodeError"))
    /\ trace (snd (@transcribe Latin1 deaf_world clip_upload (@initial_state deaf_world)))
       = trace (@initial_state deaf_world)
         ++ [EvRead; EvTmpDir; EvWriteRaw; EvDecode; EvCleanup] ++ evs
    /\ List.filter is_load_model evs = []
    /\ List.filter is_infer evs = []
    /\ asr_cache (snd (@transcribe Latin1 deaf_world clip_upload (@initial_state deaf_world)))
       = asr_cache (@initial_state deaf_world).
Proof.
  apply (transcribe_undecodable Latin1 deaf_world clip_upload (lit "clip.wav")).
  - split; [reflexivity|]. split; [discriminate|]. split.
    + assert (extension clip_upload = lit ".wav") as -> by reflexivity.
      unfold ALLOWED_EXT. apply elem_of_union_l. by apply elem_of_singleton.
    + by vm_compute.
  - reflexivity.
  - reflexivity.
Defined.

(** An admitted, decodable upload that arrives while no pipeline is cached
    and the model cannot be built is answered with 500 "Model initialization
    failed"; nothing is cached, so the next request tries again, and no
    inference is run. *)
Theorem transcribe_model_unavailable (U : UnicodeDB) (E : External)
    (file : UploadFile) (name : str) (s : state) (a w : Audio) (e0 : exn) :
  admitted file name ->
  write_raw name (contents file) = Ok tt ->
  from_file name (contents file) = Ok a ->
  export_wav a = Ok w ->
  asr_cache s = None ->
  pipeline = Raise e0 ->
  exists evs,
    fst (transcribe file s) = Raise (HTTPException 500 "Model initialization failed")
    /\ trace (snd (transcribe file s)) = trace s ++ evs
    /\ List.filter is_infer evs = []
    /\ asr_cache (snd (transcribe file s)) = None.
Proof.
  intros Hadm Hwrite Hdecode Hexport Hcache Hpipe. admit_upload Hadm.
  destruct name as [|c name]; [done|].
  unfold transcribe. rewrite Hname.
  unfold validate_file_meta. rewrite Hname. simpl default.
  run_service; try congruence; rewrite <- ?app_assoc; simpl.
  all: by eexists.
Qed.

Lemma transcribe_model_unavailable_witness :
  exists evs,
    fst (@transcribe Latin1 offline_world clip_upload (@initial_state offline_world))
    = Raise (HTTPException 500 "Model initialization failed")
    /\ trace (snd (@transcribe Latin1 offline_world clip_upload
                     (@initial_state offline_world)))
       = trace (@initial_state offline_world) ++ evs
    /\ List.filter is_infer evs = []
    /\ asr_cache (snd (@transcribe Latin1 offline_world clip_upload
                         (@initial_state offline_world))) = None.
Proof.
  apply (transcribe_model_unavailable Latin1 offline_world clip_upload
           (lit "clip.wav") _ (contents clip_upload) (contents clip_upload)
           (OtherError "OSError")).
  - split; [reflexivity|]. split; [discriminate|]. split.
    + assert (extension clip_upload = lit ".wav") as -> by reflexivity.
      unfold ALLOWED_EXT. apply elem_of_union_l. by apply elem_of_singleton.
    + by vm_compute.
  - reflexivity.
  - reflexivity.
  - reflexivity.
  - reflexivity.
  - reflexivity.
Defined.

(** A recording in which the model hears nothing (no "text" in its result,
    or only whitespace) is not an error: the answer is the empty text with
    no keywords. *)
Theorem transcribe_blank_transcript (U : UnicodeDB) (E : External)
    (file : UploadFile) (name : str) (s : state) (a w : Audio) (p : Pipe)
    (r : option str) :
  admitted file name ->
  write_raw name (contents file) = Ok tt ->
  from_file name (contents file) = Ok a ->
  export_wav a = Ok w ->
  asr_cache s = Some p ->
  run_pipe p w = Ok r ->
  forallb isspace (default [] r) = true ->
  fst (transcribe file s) = Ok {| text := []; keywords := [] |}.
Proof.
  intros Hadm Hwrite Hdecode Hexport Hcache Hrun Hblank. admit_upload Hadm.
  destruct name as [|c name]; [done|].
  unfold transcribe. rewrite Hname.
  unfold validate_file_meta. rewrite Hname. simpl default.
  run_service; try congruence.
  all: simplify_eq.
  all: repeat match goal with
         | Ha : ?t = Ok ?x, Hb : ?t = Ok ?y |- _ =>
             assert (y = x) by congruence; subst y; clear Hb
         end.
  all: by rewrite (strip_blank _ Hblank).
Qed.

Lemma transcribe_blank_transcript_witness :
  fst (@transcribe Latin1 quiet_world clip_upload
         (@set_asr_cache quiet_world (Some tt)
            (@with_keywords quiet_world {[ lit "rot" ]})))
  = Ok {| text := []; keywords := [] |}.
Proof.
  apply (transcribe_blank_transcript Latin1 quiet_world
           clip_upload (lit "clip.wav") _ (contents clip_upload) (contents clip_upload)
           tt (Some (lit "  "))).
  - split; [reflexivity|]. split; [discriminate|]. split.
    + assert (extension clip_upload = lit ".wav") as -> by reflexivity.
      unfold ALLOWED_EXT. apply elem_of_union_l. by apply elem_of_singleton.
    + by vm_compute.
  - reflexivity.
  - reflexivity.
  - reflexivity.
  - reflexivity.
  - reflexivity.
  - reflexivity.
Defined.

(** ** Filenames *)

Section SplitextFacts.

Lemma rfind_from_spec c s : forall i best,
  ((c ∉ s) /\ rfind_from c s i best = best)
  \/ (exists a b, s = a ++ c :: b /\ (c ∉ b)
                  /\ rfind_from c s i best = (i + Z.of_nat (length a))%Z).
Proof.
  induction s as [|d s IH]; intros i best; simpl.
  - left. split; [apply not_elem_of_nil|done].
  - destruct (IH (i + 1)%Z (if d =? c then i else best))
      as [[Hnot ->]|(a & b & -> & Hb & ->)].
    + destruct (N.eqb_spec d c) as [->|Hne].
      * right. exists [], s. split; [done|]. split; [done|]. simpl. lia.
      * left. split; [|done]. apply not_elem_of_cons. split; [congruence|done].
    + right. exists (d :: a), b. split; [done|]. split; [done|].
      simpl length. lia.
Qed.

Lemma rfind_spec c s :
  ((c ∉ s) /\ rfind c s = (-1)%Z)
  \/ (exists a b, s = a ++ c :: b /\ (c ∉ b) /\ rfind c s = Z.of_nat (length a)).
Proof.
  unfold rfind. destruct (rfind_from_spec c s 0 (-1))
    as [?|(a & b & ? & ? & ->)]; [by left|].
  right. exists a, b. split; [done|]. split; [done|]. lia.
Qed.

Lemma non_dot_before_positive p start n :
  non_dot_before p start n = true -> (0 < n)%nat.
Proof. destruct n; [done|lia]. Qed.

Lemma non_dot_before_true p : forall n start i c,
  (start <= i < start + n)%nat -> p !! i = Some c -> c <> 46 ->
  non_dot_before p start n = true.
Proof.
  induction n as [|n IH]; intros start i c Hi Hc Hne; simpl; [lia|].
  destruct (p !! start) as [d|] eqn:Hd; [|done].
  destruct (N.eqb_spec d 46) as [->|]; [|done].
  apply (IH (S start) i c); [|done|done].
  destruct (decide (i = start)) as [->|]; [congruence|lia].
Qed.

Lemma splitext_split a b :
  46 ∉ b ->
  let p := a ++ 46 :: b in
  let sepIndex := rfind 47 p in
  splitext p
  = if (Z.of_nat (length a) >? sepIndex)%Z
       && non_dot_before p (Z.to_nat (sepIndex + 1))
            (Z.to_nat (Z.of_nat (length a) - (sepIndex + 1)))
    then (a, 46 :: b) else (p, []).
Proof.
  intros Hb p sepIndex. unfold splitext. fold p. fold sepIndex. subst p.
  destruct (rfind_spec 46 (a ++ 46 :: b)) as [[Hnot _]|(a' & b' & Heq & Hb' & ->)].
  - exfalso. apply Hnot. set_solver.
  - apply not_elem_of_app_cons_inv_r in Heq as (-> & _ & ->); [|done|done].
    destruct (_ && _); [|done].
    by rewrite Nat2Z.id, take_app_length, drop_app_length.
Qed.

End SplitextFacts.

Lemma splitext_shape (p : str) :
  fst (splitext p) ++ snd (splitext p) = p
  /\ (snd (splitext p) = []
      \/ exists e, snd (splitext p) = 46 :: e /\ (46 ∉ e) /\ (47 ∉ e)
                   /\ fst (splitext p) <> []).
Proof.
  destruct (rfind_spec 46 p) as [[Hnot Hdot]|(a & b & -> & Hb & Hdot)].
  - unfold splitext. rewrite Hdot.
    assert ((-1 >? rfind 47 p)%Z = false) as ->.
    { destruct (rfind_spec 47 p) as [[_ ->]|(a & ? & _ & _ & ->)]; [done|].
      destruct (Z.gtb_spec (-1) (Z.of_nat (length a))); [lia|done]. }
    simpl. split; [apply app_nil_r|by left].
  - rewrite splitext_split by done. cbv zeta.
    destruct (Z.gtb_spec (Z.of_nat (length a)) (rfind 47 (a ++ 46 :: b)));
      simpl; [|split; [apply app_nil_r|by left]].
    destruct (non_dot_before _ _ _) eqn:Hnd;
      simpl; [|split; [apply app_nil_r|by left]].
    split; [done|]. right. exists b. split; [done|]. split; [done|].
    apply non_dot_before_positive in Hnd. split.
    + destruct (rfind_spec 47 (a ++ 46 :: b))
        as [[Hnot _]|(a' & b' & Heq & Hb' & Hsep)].
      { apply not_elem_of_app in Hnot as [_ Hnot].
        by apply not_elem_of_cons in Hnot as [_ ?]. }
      rewrite Hsep in H.
      apply app_eq_inv in Heq as [(k & Hk1 & Hk)|(k & Hk1 & Hk)].
      * destruct k as [|d k].
        { rewrite Hk1, length_app in H. simpl in H. lia. }
        injection Hk as <- ->.
        apply not_elem_of_app in Hb' as [_ Hb'].
        by apply not_elem_of_cons in Hb' as [_ ?].
      * rewrite Hk1, length_app in H. lia.
    + intros ->. simpl in *.
      destruct (rfind_spec 47 (46 :: b)) as [[_ Hsep]|(? & ? & _ & _ & Hsep)];
        rewrite Hsep in *; lia.
Qed.

(** [splitext] cuts its argument in two, nothing lost; the second part is
    empty or is the last dot and what follows it, with no slash in it, and
    then the first part is not empty. *)
Theorem splitext_parts (p : str) :
  fst (splitext p) ++ snd (splitext p) = p
  /\ (snd (splitext p) = []
      \/ exists e, snd (splitext p) = 46 :: e /\ (46 ∉ e) /\ (47 ∉ e)
                   /\ fst (splitext p) <> []).
Proof. apply splitext_shape. Qed.

(** A name whose last component holds something else than dots before its
    last dot is cut at that dot. *)
Lemma splitext_named (x y e : str) (c : char) :
  c <> 46 -> c <> 47 -> 47 ∉ y -> 46 ∉ e -> 47 ∉ e ->
  splitext ((x ++ c :: y) ++ 46 :: e) = (x ++ c :: y, 46 :: e).
Proof.
  intros Hc46 Hc47 Hy He46 He47. rewrite splitext_split by done. cbv zeta.
  set (p := (x ++ c :: y) ++ 46 :: e).
  assert (Hrest : 47 ∉ c :: y ++ 46 :: e).
  { apply not_elem_of_cons. split; [congruence|].
    apply not_elem_of_app. split; [done|].
    apply not_elem_of_cons. split; [done|done]. }
  assert (Hp : p = x ++ c :: y ++ 46 :: e).
  { unfold p. by rewrite <- app_assoc. }
  assert (Hsep : (rfind 47 p < Z.of_nat (length x))%Z).
  { destruct (rfind_spec 47 p) as [[_ ->]|(a' & b' & Heq & Hb' & ->)]; [lia|].
    rewrite Hp in Heq. apply app_eq_inv in Heq as [(k & Hk1 & Hk)|(k & Hk1 & Hk)].
    - destruct k as [|d k].
      + exfalso. apply Hrest. simpl in Hk. rewrite <- Hk. left.
      + rewrite Hk1, length_app. simpl. lia.
    - exfalso. apply Hrest. rewrite Hk. apply elem_of_app. right. left. }
  assert (Hlow : (-1 <= rfind 47 p)%Z).
  { destruct (rfind_spec 47 p) as [[_ ->]|(a' & b' & _ & _ & ->)]; lia. }
  assert ((Z.of_nat (length (x ++ c :: y)) >? rfind 47 p)%Z = true) as ->.
  { apply Z.gtb_gt. rewrite length_app. lia. }
  rewrite (non_dot_before_true p _ _ (length x) c); [done| |by rewrite Hp, list_lookup_middle|done].
  rewrite length_app. simpl. lia.
Qed.

(** Which names [validate_file_meta] lets through.  An accepted name ends in
    a dot and an extension without dot or slash whose lowercase form is
    ".wav" or ".mp3", and has something before that dot.  Conversely a name
    whose last component holds, before its last dot, something else than
    dots, and whose extension lowers to ".wav" or ".mp3", is accepted. *)
Theorem validate_file_meta_names (U : UnicodeDB) (E : External)
    (file : UploadFile) (s : state) :
  (forall s', validate_file_meta file s = (Ok tt, s') ->
     s' = s
     /\ exists root e,
          filename file = Some (root ++ 46 :: e) /\ root <> []
          /\ (46 ∉ e) /\ (47 ∉ e) /\ lower (46 :: e) ∈ ALLOWED_EXT)
  /\ (forall x y e c,
        filename file = Some ((x ++ c :: y) ++ 46 :: e) ->
        c <> 46 -> c <> 47 -> 47 ∉ y -> 46 ∉ e -> 47 ∉ e ->
        lower (46 :: e) ∈ ALLOWED_EXT ->
        validate_file_meta file s = (Ok tt, s)).
Proof.
  split.
  - intros s'. unfold validate_file_meta.
    destruct (bool_decide_reflect
                (lower (snd (splitext (default [] (filename file)))) ∈ ALLOWED_EXT))
      as [Hext|Hext]; [|discriminate].
    intros [= <-]. split; [done|].
    destruct (splitext_shape (default [] (filename file)))
      as [Hcat [Hnil|(e & Hsnd & He46 & He47 & Hroot)]].
    + exfalso. rewrite Hnil in Hext. revert Hext. unfold ALLOWED_EXT.
      rewrite lower_nil, elem_of_union, !elem_of_singleton.
      intros [?|?]; discriminate.
    + exists (fst (splitext (default [] (filename file)))), e.
      rewrite Hsnd in Hcat, Hext.
      destruct (filename file) as [name|]; simpl in *.
      * by rewrite Hcat.
      * by destruct (fst (splitext [])).
  - intros x y e c Hname Hc46 Hc47 Hy He46 He47 Hext.
    unfold validate_file_meta. rewrite Hname.
    replace (default [] (Some ((x ++ c :: y) ++ 46 :: e)))
      with ((x ++ c :: y) ++ 46 :: e) by done.
    rewrite (splitext_named x y e c) by done.
    replace (snd (x ++ c :: y, 46 :: e)) with (46 :: e) by done.
    by rewrite bool_decide_eq_true_2.
Qed.

Lemma validate_file_meta_names_witness :
  (exists root e,
     filename clip_upload = Some (root ++ 46 :: e) /\ root <> []
     /\ (46 ∉ e) /\ (47 ∉ e) /\ lower (46 :: e) ∈ ALLOWED_EXT)
  /\ validate_file_meta
       {| filename := Some ((lit "uploads/" ++ 97 :: lit ".b") ++ 46 :: lit "MP3");
          contents := [] |} initial_state
     = (Ok tt, initial_state).
Proof.
  split.
  - apply (proj1 (validate_file_meta_names Latin1 default_world clip_upload
                    initial_state) initial_state). reflexivity.
  - apply (proj2 (validate_file_meta_names Latin1 default_world _ initial_state)
             (lit "uploads/") (lit ".b") (lit "MP3") 97); try done;
      apply (bool_decide_unpack _); by vm_compute.
Defined.

(** ** Startup *)

(** Startup always completes.  It leaves the index [load_keywords] built,
    and a pipeline cached exactly when one was cached before or the model
    could be built: a model that cannot be built leaves the cache empty
    instead of stopping the service. *)
Theorem lifespan_startup_state (U : UnicodeDB) (E : External) (s : state) :
  exists s',
    lifespan_startup s = (Ok tt, s')
    /\ keyword_set s' = keyword_set (snd (load_keywords s))
    /\ keywords_raw s' = keywords_raw (snd (load_keywords s))
    /\ (is_Some (asr_cache s')
        <-> is_Some (asr_cache s) \/ exists p, pipeline = Ok p).
Proof.
  unfold lifespan_startup, load_keywords, load_keywords_try.
  run_service; (eexists; split; [reflexivity|]); simpl;
    (split; [done|split; [done|]]); unfold is_Some; naive_solver.
Qed.
